(** * SEO keyword tool: a shallow embedding of [app.py]

    The development follows the two cached functions of the script,
    [generate_keywords] and [get_seo_metrics], and the analysis loop of the
    main page that calls the second one on a prefix of the first one's
    result.

    Python values are embedded as an inductive type, Python dictionaries as
    [gmap string _], raised instances of [Exception] as an explicit
    [outcome], the exceptions outside [Exception] as exit signals that end
    a call ([ending]), and every effect (the HTTP endpoint, the clock, the
    Streamlit caches, the widgets touched by the loop) as explicit state. *)

From Stdlib Require Import Ascii.
From stdpp Require Import gmap strings list fin_maps pretty.

#[local] Set Warnings "-register-all,-clear-no-such-hyp".
#[local] Open Scope Z_scope.

(** ** Python runtime: exceptions and values *)

Module Py.

(** The classes below [Exception] that the script and its libraries
    raise: built-in ones, those of [requests], of the JSON decoder and of
    Streamlit's API; [OtherException] is any other class that derives from
    [Exception]. *)
Inductive exception_class :=
  | AttributeError | ValueError | ZeroDivisionError | LookupError
  | MemoryError | UnicodeError | OSError
  | HTTPError | ConnectionError | Timeout | RequestException
  | JSONDecodeError
  | StreamlitAPIException
  | OtherException.

(** An instance of [Exception]: its class and the text [str(e)] renders. *)
Record exn := Exn { exn_class : exception_class; exn_text : string }.

(** The classes of [BaseException] that do not derive from [Exception]. *)
Inductive exit_class := KeyboardInterrupt | SystemExit | GeneratorExit.

(** An instance of one of them: what [except Exception] does not catch. *)
Record exit_signal := ExitSignal { exit_class_of : exit_class; exit_text : string }.

(** [str(e)] *)
Definition str (e : exn) : string := exn_text e.

(** The result of evaluating a Python expression: a value, or a raised
    exception. *)
Inductive outcome (A : Type) : Type :=
  | Ret (a : A)
  | Raise (e : exn).
#[global] Arguments Ret {A} a.
#[global] Arguments Raise {A} e.

#[global] Instance outcome_bind : MBind outcome := λ A B k m,
  match m with
  | Ret a => k a
  | Raise e => Raise e
  end.

(** The way a call ends when an exit signal may be raised as well: it
    completes, with a value or an instance of [Exception], or it exits. *)
Inductive ending (A : Type) : Type :=
  | Completed (o : outcome A)
  | Exits (sg : exit_signal).
#[global] Arguments Completed {A} o.
#[global] Arguments Exits {A} sg.

(** The values [response.json()] can produce, which are also the values
    the result dictionaries of [get_seo_metrics] hold.  A JSON number
    without fraction or exponent is a Python [int]; any other number is
    kept as the decimal [m * 10^e] its literal denotes. *)
Inductive val :=
  | VNone
  | VBool (b : bool)
  | VInt (n : Z)
  | VFloat (m e : Z)
  | VStr (s : string)
  | VList (l : list val)
  | VDict (d : gmap string val).

(** [type(v).__name__] *)
Definition type_name (v : val) : string :=
  match v with
  | VNone => "NoneType"
  | VBool _ => "bool"
  | VInt _ => "int"
  | VFloat _ _ => "float"
  | VStr _ => "str"
  | VList _ => "list"
  | VDict _ => "dict"
  end.

(** What looking up the attribute [get] raises on a value that is not a
    dictionary. *)
Definition no_get (v : val) : exn :=
  Exn AttributeError ("'" +:+ type_name v +:+ "' object has no attribute 'get'").

(** [v.get(key, default)]: the dictionary method; on any other value the
    attribute lookup raises [AttributeError]. *)
Definition get (v : val) (key : string) (dflt : val) : outcome val :=
  match v with
  | VDict d => Ret (default dflt (d !! key))
  | _ => Raise (no_get v)
  end.

(** [s.replace(old, new)] for one-character [old] and [new], the only way
    the script calls it.  The underscore and the space are ASCII, so the
    replacement acts alike on code points and on UTF-8 bytes. *)
Fixpoint str_replace (old new : Ascii.ascii) (s : string) : string :=
  match s with
  | EmptyString => EmptyString
  | String c s' =>
      String (if Ascii.eqb c old then new else c) (str_replace old new s')
  end.

(** [c in s] for a one-character [c] *)
Fixpoint str_contains (c : Ascii.ascii) (s : string) : bool :=
  match s with
  | EmptyString => false
  | String c' s' => Ascii.eqb c' c || str_contains c s'
  end.

(** [list(set(l))].  The iteration order of a Python [set] of strings
    depends on the string hashes of the running interpreter, so the order
    is a parameter of the development; what the language guarantees is
    that the list has no duplicates and the same members as [l]. *)
Class SetOrder := {
  list_set : list string → list string;
  list_set_NoDup l : NoDup (list_set l);
  list_set_elem l x : x ∈ list_set l ↔ x ∈ l
}.

(** [l[:k]] with Python's reading of a negative bound. *)
Definition slice_to {A} (l : list A) (k : Z) : list A :=
  if k <? 0 then take (Z.to_nat (Z.of_nat (length l) + k)) l
  else take (Z.to_nat k) l.

End Py.

Import Py.

(** One concrete iteration order: the one [remove_dups] lists the members
    in. *)
Program Definition first_seen_order : SetOrder :=
  {| list_set := remove_dups |}.
Next Obligation. intros l. apply NoDup_remove_dups. Qed.
Next Obligation. intros l x. apply elem_of_remove_dups. Qed.

(** Another one: the reverse of it. *)
Program Definition last_seen_order : SetOrder :=
  {| list_set := λ l, reverse (remove_dups l) |}.
Next Obligation.
  intros l. cbn. rewrite reverse_Permutation. apply NoDup_remove_dups.
Qed.
Next Obligation.
  intros l x. cbn. rewrite elem_of_reverse. apply elem_of_remove_dups.
Qed.

(** ** The lexical database (NLTK's WordNet reader) *)

Module WordNet.

(** [lemma.name()] *)
Record lemma := Lemma_ { lemma_name : string }.

(** A sense group: [syn.name()] and [syn.lemmas()]. *)
Record synset := Synset { synset_name : string; lemmas : list lemma }.

(** A snapshot of the database is what [wordnet.synsets] answers for each
    word; the reader raises [LookupError] when the corpus is missing. *)
Record snapshot := { synsets : string → outcome (list synset) }.

(** A snapshot given by a list of sense groups: a word's senses are the
    groups that list the word among their lemmas. *)
Definition has_lemma (w : string) (syn : synset) : bool :=
  bool_decide (w ∈ lemma_name <$> lemmas syn).

Definition of_senses (senses : list synset) : snapshot :=
  {| synsets := λ w, Ret (filter (λ syn, has_lemma w syn = true) senses) |}.

End WordNet.

Import WordNet.

(** ** [generate_keywords] *)

Section generate_keywords.
Context {order : SetOrder} (wordnet : snapshot).

(** The two nested [for] loops, appending to [synonyms]. *)
Definition collect_synonyms (syns : list synset) : list string :=
  foldl (λ synonyms syn,
    foldl (λ synonyms lemma,
      synonyms ++ [str_replace "_"%char " "%char (lemma_name lemma)])
      synonyms (lemmas syn))
    [] syns.

Definition generate_keywords (seed_keyword : string) : outcome (list string) :=
  syns ← synsets wordnet seed_keyword;
  let synonyms := collect_synonyms syns in
  Ret (list_set synonyms).

End generate_keywords.

(** The lemma names of a list of senses, sense by sense, each with its
    underscores turned into spaces. *)
Definition variants_of (syns : list synset) : list string :=
  syn ← syns;
  (λ lemma, str_replace "_"%char " "%char (lemma_name lemma)) <$> lemmas syn.

(** A snapshot that answers every word, the empty one included, with the
    same senses. *)
Definition answering (senses : list synset) : snapshot :=
  {| synsets := λ _, Ret senses |}.

(** ** A state-and-exception monad for the effectful parts *)

(** A command runs on a state [S]; it returns or raises, and leaves a state
    behind either way. *)
Definition prog (S A : Type) : Type := S → outcome A * S.

Definition pret {S A} (a : A) : prog S A := λ s, (Ret a, s).

Definition pbind {S A B} (m : prog S A) (k : A → prog S B) : prog S B :=
  λ s, match m s with
       | (Ret a, s') => k a s'
       | (Raise e, s') => (Raise e, s')
       end.

Notation "'let*' x := m 'in' k" := (pbind m (λ x, k))
  (at level 10, x name, m at level 100, k at level 200,
   format "'[v' 'let*'  x  :=  m  'in' '/' k ']'").
Notation "m ;;; k" := (pbind m (λ _, k))
  (at level 100, k at level 200, right associativity,
   format "'[v' m  ;;; '/' k ']'").

(** A pure expression that may raise, run as a command. *)
Definition lift {S A} (o : outcome A) : prog S A := λ s, (o, s).

(** [try: body / except Exception as e: handler e], for a body that no
    exit signal cuts short: what a command of [prog] raises is an [exn],
    an instance of [Exception], and the clause catches every one of them.
    The clause in full is [itry] below. *)
Definition ptry {S A} (body : prog S A) (handler : exn → prog S A) : prog S A :=
  λ s, match body s with
       | (Ret a, s') => (Ret a, s')
       | (Raise e, s') => handler e s'
       end.

(** Commands that an exit signal may cut short. *)
Definition iprog (S A : Type) : Type := S → ending A * S.

(** A command of [prog], which completes. *)
Definition complete {S A} (m : prog S A) : iprog S A :=
  λ s, let '(o, s') := m s in (Completed o, s').

Definition ibind {S A B} (m : iprog S A) (k : A → iprog S B) : iprog S B :=
  λ s, match m s with
       | (Completed (Ret a), s') => k a s'
       | (Completed (Raise e), s') => (Completed (Raise e), s')
       | (Exits sg, s') => (Exits sg, s')
       end.

(** [try: body / except Exception as e: handler e]: the clause catches the
    instances of [Exception] and lets an exit signal through. *)
Definition itry {S A} (body : iprog S A) (handler : exn → iprog S A)
  : iprog S A :=
  λ s, match body s with
       | (Completed (Ret a), s') => (Completed (Ret a), s')
       | (Completed (Raise e), s') => handler e s'
       | (Exits sg, s') => (Exits sg, s')
       end.

(** ** The outside world: the clock and the HTTP endpoint *)

Module Net.

(** [requests.get(url, params=params, timeout=timeout)] *)
Record request := Request {
  req_url : string;
  req_params : gmap string val;
  req_timeout : Z
}.

(** The part of a [requests.Response] the script reads: the status line,
    the final URL, and what [response.json()] evaluates to. *)
Record response := Response {
  status_code : Z;
  reason : string;
  url : string;
  json : outcome val
}.

(** What the remote side does with a request, given the requests sent
    before it: the time in milliseconds the call takes, and a response or
    the exception [requests.get] raises (connection error, timeout). *)
Record endpoint := { serve : list request → request → N * outcome response }.

(** The clock, in milliseconds, and the requests sent so far. *)
Record world := World { clock : Z; sent : list request }.

Definition requests_get (net : endpoint) (url : string)
    (params : gmap string val) (timeout : Z) : prog world response :=
  λ w,
    let req := Request url params timeout in
    let '(elapsed, o) := serve net (sent w) req in
    (o, {| clock := clock w + Z.of_N elapsed; sent := sent w ++ [req] |}).

(** [response.raise_for_status()] of [requests]: [HTTPError] for the 4xx
    and 5xx codes. *)
Definition raise_for_status (r : response) : outcome () :=
  if bool_decide (400 ≤ status_code r < 500) then
    Raise (Exn HTTPError
             (pretty (status_code r) +:+ " Client Error: " +:+ reason r
                +:+ " for url: " +:+ url r))
  else if bool_decide (500 ≤ status_code r < 600) then
    Raise (Exn HTTPError
             (pretty (status_code r) +:+ " Server Error: " +:+ reason r
                +:+ " for url: " +:+ url r))
  else Ret ().

(** The endpoint together with the exit signals that reach the process
    while it waits for an answer: for a request, none, or the signal and
    the time in milliseconds after which it arrives. *)
Record interruptible := {
  remote : endpoint;
  interrupt : list request → request → option (N * exit_signal)
}.

(** [requests.get] when a signal may arrive during the call: the signal
    is raised out of the call, the request having been sent. *)
Definition requests_get_i (env : interruptible) (url : string)
    (params : gmap string val) (timeout : Z) : iprog world response :=
  λ w,
    let req := Request url params timeout in
    match interrupt env (sent w) req with
    | Some (elapsed, sg) =>
        (Exits sg, {| clock := clock w + Z.of_N elapsed; sent := sent w ++ [req] |})
    | None => complete (requests_get (remote env) url params timeout) w
    end.

(** [time.sleep(ms / 1000)]; a negative length is refused. *)
Definition time_sleep (ms : Z) : prog world () :=
  λ w,
    if ms <? 0 then
      (Raise (Exn ValueError "sleep length must be non-negative"), w)
    else (Ret (), {| clock := clock w + ms; sent := sent w |}).

End Net.

Import Net.

(** ** Streamlit's [st.cache_data] *)

Module StCache.
Section cache_data.
Context `{Countable K} {V : Type}.

(** Modelled from the spec: a cache entry, the stored value and the time
    it was inserted (section 3, CacheEntry).  The implementation of the
    [st.cache_data] decorator belongs to Streamlit and is not part of the
    script. *)
Record entry := Entry { stored : V; inserted : Z }.

(** [ttl] in seconds, as the decorator takes it; [None] for a cache
    without expiry. *)
Variable ttl : option Z.
Variable f : K → prog world V.

(** Modelled from the spec: an entry expires [ttl] seconds after its
    insertion, and the expiry is checked when the entry is read
    (sections 3 and 9). *)
Definition live (now : Z) (e : entry) : bool :=
  match ttl with
  | None => true
  | Some seconds => now <? inserted e + 1000 * seconds
  end.

(** Modelled from the spec: the memoised function (sections 4.1, 4.2 and
    9).  A hit returns the stored value and skips the call; a miss runs
    the wrapped function and stores what it returns with the time of the
    insertion.  An exception of the wrapped function passes through, and
    then nothing is stored. *)
Definition cached (k : K) : prog (gmap K entry * world) V :=
  λ '(cache, w),
    let miss :=
      match f k w with
      | (Ret v, w') =>
          (Ret v, (<[k := Entry v (clock w')]> cache, w'))
      | (Raise e, w') => (Raise e, (cache, w'))
      end in
    match cache !! k with
    | Some e => if live (clock w) e then (Ret (stored e), (cache, w)) else miss
    | None => miss
    end.

(** Modelled from the spec: the same memoised function around a body that
    an exit signal may cut short; like an exception, the signal passes
    through and nothing is stored. *)
Definition cached_i (g : K → iprog world V) (k : K)
  : iprog (gmap K entry * world) V :=
  λ '(cache, w),
    let miss :=
      match g k w with
      | (Completed (Ret v), w') =>
          (Completed (Ret v), (<[k := Entry v (clock w')]> cache, w'))
      | (Completed (Raise e), w') => (Completed (Raise e), (cache, w'))
      | (Exits sg, w') => (Exits sg, (cache, w'))
      end in
    match cache !! k with
    | Some e =>
        if live (clock w) e then (Completed (Ret (stored e)), (cache, w)) else miss
    | None => miss
    end.

End cache_data.
#[global] Arguments entry : clear implicits.
End StCache.

Import StCache.

(** ** [get_seo_metrics] *)

Definition SERPAPI_URL : string := "https://serpapi.com/search.json".

(** The dictionary of lines 30 to 34. *)
Definition query_params (keyword api_key : string) : gmap string val :=
  {[ "q" := VStr keyword; "api_key" := VStr api_key; "num" := VInt 5 ]}.

(** The dictionary returned at lines 44 to 49. *)
Definition success_record (keyword : string)
    (search_volume keyword_difficulty : val) : gmap string val :=
  {[ "keyword" := VStr keyword;
     "search_volume" := search_volume;
     "keyword_difficulty" := keyword_difficulty;
     "success" := VBool true ]}.

(** The dictionary returned at lines 51 to 55. *)
Definition failure_record (keyword : string) (e : exn) : gmap string val :=
  {[ "keyword" := VStr keyword;
     "error" := VStr (str e);
     "success" := VBool false ]}.

Section get_seo_metrics.
Variable net : endpoint.

(** The statements under [try:]. *)
Definition try_block (keyword api_key : string) : prog world (gmap string val) :=
  let params := query_params keyword api_key in
  let* response := requests_get net SERPAPI_URL params 10 in
  lift (raise_for_status response) ;;;
  let* data := lift (json response) in
  let* metadata := lift (get data "search_metadata" (VDict ∅)) in
  let* search_volume := lift (get metadata "total_results" (VStr "N/A")) in
  let* keyword_difficulty := lift (get data "keyword_difficulty" (VStr "N/A")) in
  pret (success_record keyword search_volume keyword_difficulty).

(** The decorated function's body. *)
Definition get_seo_metrics_body (keyword api_key : string)
  : prog world (gmap string val) :=
  ptry (try_block keyword api_key)
       (λ e, pret (failure_record keyword e)).

(** [@st.cache_data(ttl=3600)] *)
Definition get_seo_metrics (keyword api_key : string)
  : prog (gmap (string * string) (entry (gmap string val)) * world)
         (gmap string val) :=
  cached (Some 3600) (λ '(keyword, api_key), get_seo_metrics_body keyword api_key)
         (keyword, api_key).

End get_seo_metrics.

(** The request [get_seo_metrics] sends. *)
Definition metrics_request (keyword api_key : string) : request :=
  Request SERPAPI_URL (query_params keyword api_key) 10.

(** Lines 36 to 49 alone: what the [try] block makes of a response once
    [requests.get] has returned it. *)
Definition extract (keyword : string) (response : response)
  : outcome (gmap string val) :=
  _ ← raise_for_status response;
  data ← json response;
  metadata ← get data "search_metadata" (VDict ∅);
  search_volume ← get metadata "total_results" (VStr "N/A");
  keyword_difficulty ← get data "keyword_difficulty" (VStr "N/A");
  Ret (success_record keyword search_volume keyword_difficulty).

(** The record the [except] clause turns an outcome into. *)
Definition absorb (keyword : string) (o : outcome (gmap string val))
  : gmap string val :=
  match o with
  | Ret r => r
  | Raise e => failure_record keyword e
  end.

(** *** With exit signals *)

Section get_seo_metrics_i.
Variable env : interruptible.

(** The statements under [try:], lines 30 to 49, when a signal may arrive
    during [requests.get]. *)
Definition try_block_i (keyword api_key : string) : iprog world (gmap string val) :=
  let params := query_params keyword api_key in
  ibind (requests_get_i env SERPAPI_URL params 10) (λ response,
  complete (lift (extract keyword response))).

(** The decorated function's body, lines 29 to 55. *)
Definition get_seo_metrics_body_i (keyword api_key : string)
  : iprog world (gmap string val) :=
  itry (try_block_i keyword api_key)
       (λ e, complete (pret (failure_record keyword e))).

(** [@st.cache_data(ttl=3600)] *)
Definition get_seo_metrics_i (keyword api_key : string)
  : iprog (gmap (string * string) (entry (gmap string val)) * world)
          (gmap string val) :=
  cached_i (Some 3600)
           (λ '(keyword, api_key), get_seo_metrics_body_i keyword api_key)
           (keyword, api_key).

End get_seo_metrics_i.

(** The expiry of the metrics cache, in milliseconds. *)
Definition metrics_ttl_ms : Z := 1000 * 3600.

(** [@st.cache_data] without [ttl], on a function that does not touch the
    world. *)
Definition generate_keywords_cached {order : SetOrder} (wordnet : snapshot)
    (seed_keyword : string)
  : prog (gmap string (entry (list string)) * world) (list string) :=
  cached None (λ seed_keyword, lift (generate_keywords wordnet seed_keyword))
         seed_keyword.

(** ** The analysis loop of the main page *)

(** What the loop does to the page and to the process, in order. *)
Inductive event :=
  | StatusText (text : string)
  | Fetch (keyword api_key : string) (metrics : gmap string val)
  | Progress (num den : Z)
  | Sleep (ms : Z).

Record app_state := AppState {
  results : list (gmap string val);
  trace : list event;
  metrics_cache : gmap (string * string) (entry (gmap string val));
  outside : world
}.

Definition emit (ev : event) : prog app_state () :=
  λ a, (Ret (), AppState (results a) (trace a ++ [ev]) (metrics_cache a) (outside a)).

(** [status_text.text(f"Analyzing: {keyword} ({i+1}/{analysis_limit})")] *)
Definition status_text_text (keyword : string) (i analysis_limit : Z) : prog app_state () :=
  emit (StatusText ("Analyzing: " +:+ keyword +:+ " (" +:+ pretty (i + 1)
                      +:+ "/" +:+ pretty analysis_limit +:+ ")")).

(** [progress_bar.progress((i + 1) / analysis_limit)]: the division raises
    on a zero divisor, and Streamlit refuses a value outside [[0.0, 1.0]].
    The quotient is kept as the pair of its operands. *)
Definition progress_bar_progress (num den : Z) : prog app_state () :=
  if bool_decide (den = 0) then
    lift (Raise (Exn ZeroDivisionError "division by zero"))
  else if bool_decide (0 < den ∧ 0 ≤ num ≤ den ∨ den < 0 ∧ den ≤ num ≤ 0) then
    emit (Progress num den)
  else
    lift (Raise (Exn StreamlitAPIException
                   "Progress Value has invalid value [0.0, 1.0]")).

(** [time.sleep(0.2)] *)
Definition sleep_200ms : prog app_state () :=
  λ a,
    let '(o, w) := time_sleep 200 (outside a) in
    (o, AppState (results a) (trace a ++ [Sleep 200]) (metrics_cache a) w).

(** ** Histories of a process *)

(** What happens to the metrics cache and the world during the life of a
    process: calls of [get_seo_metrics], and time passing. *)
Inductive action :=
  | CallFetch (keyword api_key : string)
  | Wait (ms : N).

Definition step (net : endpoint) (a : action)
    (st : gmap (string * string) (entry (gmap string val)) * world)
  : gmap (string * string) (entry (gmap string val)) * world :=
  match a with
  | CallFetch keyword api_key => (get_seo_metrics net keyword api_key st).2
  | Wait ms => (st.1, (time_sleep (Z.of_N ms) st.2).2)
  end.

Definition run (net : endpoint) (history : list action)
    (st : gmap (string * string) (entry (gmap string val)) * world)
  : gmap (string * string) (entry (gmap string val)) * world :=
  foldl (λ st a, step net a st) st history.

(** ** The shape of a metrics record *)

(** The two field groups and the flag that tells them apart. *)
Definition has_metrics (r : gmap string val) : Prop :=
  is_Some (r !! "search_volume") ∧ is_Some (r !! "keyword_difficulty").

Definition no_metrics (r : gmap string val) : Prop :=
  r !! "search_volume" = None ∧ r !! "keyword_difficulty" = None.

Definition well_formed (r : gmap string val) : Prop :=
  (r !! "success" = Some (VBool true) ∧ has_metrics r ∧ r !! "error" = None)
  ∨ (r !! "success" = Some (VBool false) ∧ is_Some (r !! "error") ∧ no_metrics r).

(** A record as one of the two [return] statements builds it for
    [keyword]. *)
Definition built_for (keyword : string) (r : gmap string val) : Prop :=
  (∃ search_volume keyword_difficulty,
     r = success_record keyword search_volume keyword_difficulty)
  ∨ (∃ e, r = failure_record keyword e).

(** The invariant of the metrics cache: each entry holds a record built
    for the keyword of its key. *)
Definition cache_ok (cache : gmap (string * string) (entry (gmap string val)))
  : Prop :=
  ∀ keyword api_key e,
    cache !! (keyword, api_key) = Some e → built_for keyword (stored e).

Section main.
Variable net : endpoint.

(** [metrics = get_seo_metrics(keyword, api_key)] *)
Definition call_get_seo_metrics (keyword api_key : string)
  : prog app_state (gmap string val) :=
  λ a,
    match get_seo_metrics net keyword api_key (metrics_cache a, outside a) with
    | (Ret metrics, (cache, w)) =>
        (Ret metrics,
         AppState (results a) (trace a ++ [Fetch keyword api_key metrics]) cache w)
    | (Raise e, (cache, w)) => (Raise e, AppState (results a) (trace a) cache w)
    end.

(** [results.append(metrics)] *)
Definition results_append (metrics : gmap string val) : prog app_state () :=
  λ a, (Ret (), AppState (results a ++ [metrics]) (trace a) (metrics_cache a) (outside a)).

Definition loop_body (api_key : string) (analysis_limit : Z)
    (i : Z) (keyword : string) : prog app_state () :=
  status_text_text keyword i analysis_limit ;;;
  let* metrics := call_get_seo_metrics keyword api_key in
  results_append metrics ;;;
  progress_bar_progress (i + 1) analysis_limit ;;;
  sleep_200ms.

(** [for i, keyword in enumerate(...)], from index [i] on. *)
Fixpoint for_enumerate (body : Z → string → prog app_state ()) (i : Z)
    (l : list string) : prog app_state () :=
  match l with
  | [] => pret ()
  | keyword :: l' => body i keyword ;;; for_enumerate body (i + 1) l'
  end.

(** Lines 106 to 116: [results = []] and the loop. *)
Definition analysis_loop (keywords : list string) (api_key : string)
    (analysis_limit : Z) : prog app_state () :=
  (λ a, (Ret (), AppState [] (trace a) (metrics_cache a) (outside a))) ;;;
  for_enumerate (loop_body api_key analysis_limit) 0
                (slice_to keywords analysis_limit).

End main.

(** The [Fetch] events of a trace: the calls of [get_seo_metrics], in
    order, each with the record it returned. *)
Definition fetch_calls (t : list event) : list (string * string * gmap string val) :=
  omap (λ ev, match ev with
              | Fetch keyword api_key metrics => Some (keyword, api_key, metrics)
              | _ => None
              end) t.

(** ** Fixtures *)

(** The two senses of "bank". *)
Definition bank_senses : list synset :=
  [ Synset "bank_(finance)" [Lemma_ "bank"; Lemma_ "depository"];
    Synset "bank_(river)" [Lemma_ "bank"; Lemma_ "riverbank"] ].

Definition bank_db : snapshot := of_senses bank_senses.

(** An endpoint that answers every request with [status] and the given
    body, after [ms] milliseconds. *)
Definition constant_endpoint (ms : N) (status : Z) (reason : string)
    (body : outcome val) : endpoint :=
  {| serve := λ _ req,
       (ms, Ret (Response status reason (req_url req) body)) |}.

(** An endpoint on which [requests.get] raises [e]. *)
Definition failing_endpoint (e : exn) : endpoint :=
  {| serve := λ _ _, (0%N, Raise e) |}.

(** An endpoint during whose calls no signal arrives. *)
Definition uninterrupted (net : endpoint) : interruptible :=
  {| remote := net; interrupt := λ _ _, None |}.

(** An endpoint during whose every call the signal [sg] arrives after
    [ms] milliseconds. *)
Definition interrupted_by (ms : N) (sg : exit_signal) (net : endpoint)
  : interruptible :=
  {| remote := net; interrupt := λ _ _, Some (ms, sg) |}.

(** ** Histories of the keyword cache *)

(** A later call of the memoised [generate_keywords]: the set order of
    the interpreter, the database as it is then, the seed, and the world
    at the time of the call. *)
Record expand_call := ExpandCall {
  call_order : SetOrder;
  call_wordnet : snapshot;
  call_seed : string;
  call_world : world
}.

(** The keyword cache after a sequence of such calls. *)
Definition expand_history (calls : list expand_call)
    (cache : gmap string (entry (list string)))
  : gmap string (entry (list string)) :=
  foldl (λ cache c,
           (generate_keywords_cached (order := call_order c) (call_wordnet c)
              (call_seed c) (cache, call_world c)).2.1)
        cache calls.

(** ** The loop seen from the cache and the world *)

(** The cache and the world of the page. *)
Definition backend (a : app_state)
  : gmap (string * string) (entry (gmap string val)) * world :=
  (metrics_cache a, outside a).

(** What the loop over [l] does to the cache and the world: a call and a
    sleep of 200 ms for each keyword. *)
Definition loop_history (l : list string) (api_key : string) : list action :=
  keyword ← l; [CallFetch keyword api_key; Wait 200].

(** The pairs a history calls [get_seo_metrics] on, in order. *)
Definition called (history : list action) : list (string * string) :=
  omap (λ a, match a with
             | CallFetch keyword api_key => Some (keyword, api_key)
             | Wait _ => None
             end) history.

(** The events of the iterations over [l] from index [i] on, when the
    calls return the records [rs]. *)
Fixpoint loop_events (api_key : string) (analysis_limit : Z) (i : Z)
    (l : list string) (rs : list (gmap string val)) : list event :=
  match l, rs with
  | keyword :: l', r :: rs' =>
      StatusText ("Analyzing: " +:+ keyword +:+ " (" +:+ pretty (i + 1)
                    +:+ "/" +:+ pretty analysis_limit +:+ ")")
      :: Fetch keyword api_key r
      :: Progress (i + 1) analysis_limit
      :: Sleep 200
      :: loop_events api_key analysis_limit (i + 1) l' rs'
  | _, _ => []
  end.

(** The values the progress bar was set to, as numerator and denominator. *)
Definition progress_events (t : list event) : list (Z * Z) :=
  omap (λ ev, match ev with Progress num den => Some (num, den) | _ => None end) t.

(** The sleeps, in milliseconds. *)
Definition sleep_events (t : list event) : list Z :=
  omap (λ ev, match ev with Sleep ms => Some ms | _ => None end) t.

(** The cache and the world at the moment the loop over [l] makes its
    call number [j], counted from 0. *)
Definition before_call (net : endpoint) (l : list string) (api_key : string)
    (j : nat) (st : gmap (string * string) (entry (gmap string val)) * world)
  : gmap (string * string) (entry (gmap string val)) * world :=
  run net (loop_history (take j l) api_key) st.

(** A cache whose entries were all inserted at [t0] or later. *)
Definition inserted_since (t0 : Z)
    (cache : gmap (string * string) (entry (gmap string val))) : Prop :=
  ∀ k e, cache !! k = Some e → t0 ≤ inserted e.

(** The number of lemmas of a list of senses. *)
Definition lemma_count (syns : list synset) : nat :=
  sum_list (length ∘ lemmas <$> syns).

(** * Properties of the keyword expander *)

Section expander.
Context {order : SetOrder}.

Lemma inner_loop_app (acc : list string) (ls : list lemma) :
  foldl (λ synonyms lemma,
           synonyms ++ [str_replace "_"%char " "%char (lemma_name lemma)]) acc ls
  = acc ++ ((λ lemma, str_replace "_"%char " "%char (lemma_name lemma)) <$> ls).
Proof.
  revert acc. induction ls as [|l ls IH]; intros acc; simpl.
  - by rewrite app_nil_r.
  - rewrite IH. by rewrite <- app_assoc.
Qed.

Lemma outer_loop_app (acc : list string) (syns : list synset) :
  foldl (λ synonyms syn,
           foldl (λ synonyms lemma,
                    synonyms ++ [str_replace "_"%char " "%char (lemma_name lemma)])
                 synonyms (lemmas syn)) acc syns
  = acc ++ variants_of syns.
Proof.
  revert acc. induction syns as [|syn syns IH]; intros acc; simpl.
  - by rewrite app_nil_r.
  - rewrite IH, inner_loop_app. unfold variants_of. simpl.
    by rewrite <- app_assoc.
Qed.

Lemma collect_synonyms_variants (syns : list synset) :
  collect_synonyms syns = variants_of syns.
Proof. unfold collect_synonyms. by rewrite outer_loop_app. Qed.

Lemma elem_of_variants_of (v : string) (syns : list synset) :
  v ∈ variants_of syns ↔
  ∃ syn lemma, syn ∈ syns ∧ lemma ∈ lemmas syn
               ∧ v = str_replace "_"%char " "%char (lemma_name lemma).
Proof.
  unfold variants_of. rewrite list_elem_of_bind. split.
  - intros (syn & Hv & Hsyn). apply list_elem_of_fmap in Hv as (l & -> & Hl).
    by exists syn, l.
  - intros (syn & l & Hsyn & Hl & ->). exists syn. split; [|done].
    apply list_elem_of_fmap. by exists l.
Qed.

Lemma generate_keywords_returns (wordnet : snapshot) (seed : string)
    (syns : list synset) :
  synsets wordnet seed = Ret syns →
  generate_keywords wordnet seed = Ret (list_set (variants_of syns)).
Proof.
  intros Hs. unfold generate_keywords. rewrite Hs. simpl.
  by rewrite collect_synonyms_variants.
Qed.

Lemma generate_keywords_inv (wordnet : snapshot) (seed : string)
    (vs : list string) :
  generate_keywords wordnet seed = Ret vs →
  ∃ syns, synsets wordnet seed = Ret syns ∧ vs = list_set (variants_of syns).
Proof.
  unfold generate_keywords. destruct (synsets wordnet seed) as [syns|e] eqn:Hs;
    simpl; [|done].
  intros [= <-]. exists syns. by rewrite collect_synonyms_variants.
Qed.

End expander.

(** ** Replacing a character *)

Lemma str_replace_length (old new : Ascii.ascii) (s : string) :
  String.length (str_replace old new s) = String.length s.
Proof. induction s as [|c s IH]; simpl; [done|by rewrite IH]. Qed.

Lemma str_replace_get (old new : Ascii.ascii) (s : string) (i : nat) :
  String.get i (str_replace old new s)
  = (λ c, if Ascii.eqb c old then new else c) <$> String.get i s.
Proof.
  revert i. induction s as [|c s IH]; intros i; simpl; [done|].
  destruct i as [|i]; simpl; [done|]. apply IH.
Qed.

Lemma str_replace_clears (old new : Ascii.ascii) (s : string) :
  old ≠ new → str_contains old (str_replace old new s) = false.
Proof.
  intros Hne. induction s as [|c s IH]; simpl; [done|].
  rewrite IH, orb_false_r.
  destruct (Ascii.eqb c old) eqn:Hc.
  - apply Ascii.eqb_neq. congruence.
  - done.
Qed.

Lemma str_contains_get (c : Ascii.ascii) (s : string) :
  str_contains c s = false → ∀ i, String.get i s ≠ Some c.
Proof.
  induction s as [|c' s IH]; simpl; [by intros _ []|].
  intros [Hc Hs]%orb_false_iff [|i]; simpl.
  - intros [= ->]. by rewrite Ascii.eqb_refl in Hc.
  - by apply IH.
Qed.

(** ** The memoising wrapper *)

Section cache_facts.
Context `{Countable K} {V : Type}.
Variable ttl : option Z.
Variable f : K → prog world V.
Implicit Types (cache : gmap K (entry V)) (w : world) (e : entry V).

Lemma cached_hit k cache w e :
  cache !! k = Some e → live ttl (clock w) e = true →
  cached ttl f k (cache, w) = (Ret (stored e), (cache, w)).
Proof. intros Hk Hl. unfold cached. by rewrite Hk, Hl. Qed.

Lemma cached_miss k cache w :
  (∀ e, cache !! k = Some e → live ttl (clock w) e = false) →
  cached ttl f k (cache, w)
  = match f k w with
    | (Ret v, w') => (Ret v, (<[k := Entry v (clock w')]> cache, w'))
    | (Raise e, w') => (Raise e, (cache, w'))
    end.
Proof.
  intros Hk. unfold cached. destruct (cache !! k) as [e|]; [|done].
  by rewrite (Hk e eq_refl).
Qed.

End cache_facts.

Section expander_cache.
Context {order : SetOrder} (wordnet : snapshot).
Implicit Types (cache : gmap string (entry (list string))) (w : world).

Lemma generate_keywords_cached_hit seed cache w e :
  cache !! seed = Some e →
  generate_keywords_cached wordnet seed (cache, w) = (Ret (stored e), (cache, w)).
Proof. intros Hk. unfold generate_keywords_cached. by apply cached_hit. Qed.

Lemma generate_keywords_cached_miss seed cache w :
  cache !! seed = None →
  generate_keywords_cached wordnet seed (cache, w)
  = match generate_keywords wordnet seed with
    | Ret vs => (Ret vs, (<[seed := Entry vs (clock w)]> cache, w))
    | Raise e => (Raise e, (cache, w))
    end.
Proof.
  intros Hk. unfold generate_keywords_cached.
  rewrite cached_miss by (intros e; by rewrite Hk).
  unfold lift. by destruct (generate_keywords wordnet seed).
Qed.

End expander_cache.

(** ** Claims about the keyword expander *)

(** C3: on the seed "bank", against the database whose senses are
    "bank_(finance)" with lemmas "bank", "depository" and "bank_(river)"
    with lemmas "bank", "riverbank", [generate_keywords] returns the three
    variants "bank", "depository", "riverbank", in some order, "bank" once. *)
Theorem expand_bank {order : SetOrder} :
  ∃ vs, generate_keywords bank_db "bank" = Ret vs
        ∧ vs ≡ₚ ["bank"; "depository"; "riverbank"]
        ∧ (list_to_set vs : gset string) = {[ "bank"; "depository"; "riverbank" ]}
        ∧ length vs = 3%nat
        ∧ length (filter (λ v, v = "bank") vs) = 1%nat.
Proof.
  eexists. split.
  { by apply (generate_keywords_returns bank_db "bank" bank_senses). }
  assert (list_set (variants_of bank_senses)
          ≡ₚ ["bank"; "depository"; "riverbank"]) as Hp.
  { apply NoDup_Permutation.
    - apply list_set_NoDup.
    - compute_done.
    - intros x. rewrite list_set_elem. cbn.
      rewrite !elem_of_cons, elem_of_nil. tauto. }
  split; [done|]. split; [|split].
  - rewrite (list_to_set_perm_L _ _ Hp). compute_done.
  - by rewrite Hp.
  - rewrite Hp. reflexivity.
Qed.

(** C6: no variant returned by [generate_keywords] contains an underscore;
    each variant is a lemma name of one of the seed's senses in which every
    underscore, and nothing else, has become a space. *)
Theorem expand_no_separator {order : SetOrder} (wordnet : snapshot)
    (seed : string) (vs : list string) (v : string) :
  generate_keywords wordnet seed = Ret vs → v ∈ vs →
  str_contains "_" v = false
  ∧ (∀ i, String.get i v ≠ Some "_"%char)
  ∧ ∃ syns syn lemma,
      synsets wordnet seed = Ret syns ∧ syn ∈ syns ∧ lemma ∈ lemmas syn
      ∧ String.length v = String.length (lemma_name lemma)
      ∧ ∀ i, String.get i v
             = (λ c, if Ascii.eqb c "_" then " "%char else c)
                 <$> String.get i (lemma_name lemma).
Proof.
  intros (syns & Hs & ->)%generate_keywords_inv Hv.
  apply list_set_elem, elem_of_variants_of in Hv as (syn & l & Hsyn & Hl & ->).
  assert (str_contains "_" (str_replace "_" " " (lemma_name l)) = false) as Hc
    by by apply str_replace_clears.
  split; [done|]. split; [by apply str_contains_get|].
  exists syns, syn, l. repeat split; try done.
  - apply str_replace_length.
  - intros i. apply str_replace_get.
Qed.

Lemma expand_no_separator_witness :
  str_contains "_" "depository financial institution" = false.
Proof.
  apply (expand_no_separator (order := first_seen_order)
           (answering [Synset "bank.n.01"
                         [Lemma_ "depository_financial_institution";
                          Lemma_ "bank"]])
           "bank" ["depository financial institution"; "bank"]
           "depository financial institution").
  - reflexivity.
  - apply list_elem_of_here.
Defined.

(** C7: when the lookup of the seed yields no sense group,
    [generate_keywords] returns the empty list and does not raise; so does
    its memoised form. *)
Theorem expand_no_senses {order : SetOrder} (wordnet : snapshot) (seed : string) :
  synsets wordnet seed = Ret [] →
  generate_keywords wordnet seed = Ret []
  ∧ ∀ w, (generate_keywords_cached wordnet seed (∅, w)).1 = Ret [].
Proof.
  intros Hs.
  assert (generate_keywords wordnet seed = Ret []) as Hg.
  { rewrite (generate_keywords_returns _ _ _ Hs).
    f_equal. apply elem_of_nil_inv. intros x. rewrite list_set_elem.
    cbn. apply not_elem_of_nil. }
  split; [done|]. intros w.
  rewrite generate_keywords_cached_miss by apply lookup_empty.
  by rewrite Hg.
Qed.

Lemma expand_no_senses_witness :
  generate_keywords (order := first_seen_order) bank_db "xyzzy" = Ret [].
Proof.
  apply (expand_no_senses (order := first_seen_order) bank_db "xyzzy").
  reflexivity.
Defined.

(** C9: a second call of the memoised [generate_keywords] on the same seed
    returns what the first one returned and leaves the state as the first
    one left it; and two evaluations against the same snapshot yield the
    same set of variants whatever order the interpreter lists a set in. *)
Theorem expand_idempotent (order order' : SetOrder) (wordnet : snapshot)
    (seed : string) (st : gmap string (entry (list string)) * world) :
  generate_keywords_cached (order := order) wordnet seed
    (generate_keywords_cached (order := order) wordnet seed st).2
  = generate_keywords_cached (order := order) wordnet seed st
  ∧ match generate_keywords (order := order) wordnet seed,
          generate_keywords (order := order') wordnet seed with
    | Ret vs, Ret vs' =>
        vs ≡ₚ vs' ∧ (list_to_set vs : gset string) = list_to_set vs'
    | Raise e, Raise e' => e = e'
    | _, _ => False
    end.
Proof.
  split.
  - destruct st as [cache w].
    destruct (cache !! seed) as [e|] eqn:Hk.
    + rewrite (generate_keywords_cached_hit _ _ _ _ e) by done. cbn [snd].
      by apply generate_keywords_cached_hit.
    + rewrite generate_keywords_cached_miss by done.
      destruct (generate_keywords wordnet seed) as [vs|e] eqn:Hg; cbn [snd].
      * by rewrite (generate_keywords_cached_hit _ _ _ _ (Entry vs (clock w)))
          by apply lookup_insert_eq.
      * rewrite generate_keywords_cached_miss by done. by rewrite Hg.
  - unfold generate_keywords. destruct (synsets wordnet seed) as [syns|e]; simpl;
      [|done].
    assert (@list_set order (collect_synonyms syns)
            ≡ₚ @list_set order' (collect_synonyms syns)) as Hp.
    { apply NoDup_Permutation; try apply list_set_NoDup.
      intros x. by rewrite !list_set_elem. }
    split; [done|]. apply set_eq. intros x.
    by rewrite !elem_of_list_to_set, Hp.
Qed.

(** The lists themselves depend on the order: the two orders above list
    the variants of "bank" differently. *)
Example expand_bank_two_orders :
  generate_keywords (order := first_seen_order) bank_db "bank"
  = Ret ["depository"; "bank"; "riverbank"]
  ∧ generate_keywords (order := last_seen_order) bank_db "bank"
    = Ret ["riverbank"; "bank"; "depository"].
Proof. by split. Qed.

(** C10: [generate_keywords] checks nothing about its seed: for every seed,
    the empty string included, if the lookup answers with a list of senses
    then the function returns, without raising, a duplicate-free list whose
    members are the normalised lemma names of those senses; the seed
    matters only through what the lookup answers. *)
Theorem expand_total {order : SetOrder} (wordnet : snapshot) (seed : string)
    (syns : list synset) :
  synsets wordnet seed = Ret syns →
  (∃ vs, generate_keywords wordnet seed = Ret vs
         ∧ NoDup vs ∧ ∀ v, v ∈ vs ↔ v ∈ variants_of syns)
  ∧ ∀ wordnet' seed',
      synsets wordnet' seed' = Ret syns →
      generate_keywords wordnet' seed' = generate_keywords wordnet seed.
Proof.
  intros Hs. split.
  - exists (list_set (variants_of syns)). split; [|split].
    + by apply generate_keywords_returns.
    + apply list_set_NoDup.
    + intros v. apply list_set_elem.
  - intros wordnet' seed' Hs'.
    by rewrite (generate_keywords_returns _ _ _ Hs),
               (generate_keywords_returns _ _ _ Hs').
Qed.

Lemma expand_total_witness :
  (∃ vs, generate_keywords (order := first_seen_order)
           (answering bank_senses) "" = Ret vs
         ∧ NoDup vs ∧ ∀ v, v ∈ vs ↔ v ∈ variants_of bank_senses)
  ∧ generate_keywords (order := first_seen_order) bank_db "bank"
    = generate_keywords (order := first_seen_order) (answering bank_senses) "".
Proof.
  destruct (expand_total (order := first_seen_order)
              (answering bank_senses) "" bank_senses) as [Hret Hsame].
  - reflexivity.
  - split; [exact Hret|]. apply Hsame. reflexivity.
Defined.

(** * Properties of the metrics fetcher *)

Section fetcher.
Variable net : endpoint.
Implicit Types (keyword api_key : string) (w : world)
  (cache : gmap (string * string) (entry (gmap string val))).

(** The world after the request of [get_seo_metrics] has been served. *)
Lemma try_block_eq keyword api_key w :
  try_block net keyword api_key w
  = let req := metrics_request keyword api_key in
    ((serve net (sent w) req).2 ≫= extract keyword,
     World (clock w + Z.of_N (serve net (sent w) req).1) (sent w ++ [req])).
Proof.
  unfold try_block, pbind, requests_get, metrics_request. cbn zeta.
  destruct (serve net (sent w) _) as [ms [resp|e]]; cbn [fst snd]; [|done].
  unfold extract, lift, pret, mbind, outcome_bind.
  destruct (raise_for_status resp) as [[]|e]; [|done].
  destruct (json resp) as [data|e]; [|done].
  destruct (get data _ _) as [metadata|e]; [|done].
  destruct (get metadata _ _) as [search_volume|e]; [|done].
  by destruct (get data _ _) as [keyword_difficulty|e].
Qed.

Lemma get_seo_metrics_body_eq keyword api_key w :
  get_seo_metrics_body net keyword api_key w
  = let req := metrics_request keyword api_key in
    (Ret (absorb keyword ((serve net (sent w) req).2 ≫= extract keyword)),
     World (clock w + Z.of_N (serve net (sent w) req).1) (sent w ++ [req])).
Proof.
  unfold get_seo_metrics_body, ptry. rewrite try_block_eq. cbn zeta.
  by destruct (_ ≫= _).
Qed.

Lemma get_seo_metrics_hit keyword api_key cache w e :
  cache !! (keyword, api_key) = Some e →
  clock w < inserted e + metrics_ttl_ms →
  get_seo_metrics net keyword api_key (cache, w) = (Ret (stored e), (cache, w)).
Proof.
  intros Hk Ht. unfold get_seo_metrics. apply cached_hit; [done|].
  unfold live. apply Z.ltb_lt. unfold metrics_ttl_ms in Ht. lia.
Qed.

Lemma get_seo_metrics_miss keyword api_key cache w :
  (∀ e, cache !! (keyword, api_key) = Some e →
        inserted e + metrics_ttl_ms ≤ clock w) →
  get_seo_metrics net keyword api_key (cache, w)
  = let '(o, w') := get_seo_metrics_body net keyword api_key w in
    (Ret (absorb keyword o),
     (<[(keyword, api_key) := Entry (absorb keyword o) (clock w')]> cache, w')).
Proof.
  intros Hk. unfold get_seo_metrics. rewrite cached_miss.
  - rewrite get_seo_metrics_body_eq. done.
  - intros e He. unfold live. apply Z.ltb_ge.
    specialize (Hk e He). unfold metrics_ttl_ms in Hk. lia.
Qed.

(** Every call is a hit or a miss. *)
Lemma get_seo_metrics_cases keyword api_key cache w :
  (∃ e, cache !! (keyword, api_key) = Some e
        ∧ clock w < inserted e + metrics_ttl_ms)
  ∨ (∀ e, cache !! (keyword, api_key) = Some e →
          inserted e + metrics_ttl_ms ≤ clock w).
Proof.
  destruct (cache !! (keyword, api_key)) as [e|]; [|by right].
  destruct (decide (clock w < inserted e + metrics_ttl_ms)).
  - left. by exists e.
  - right. intros e' [= <-]. lia.
Qed.

Lemma get_seo_metrics_returns keyword api_key cache w :
  ∃ r cache' w',
    get_seo_metrics net keyword api_key (cache, w) = (Ret r, (cache', w')).
Proof.
  destruct (get_seo_metrics_cases keyword api_key cache w) as [(e & Hk & Ht)|Hk].
  - rewrite (get_seo_metrics_hit _ _ _ _ e) by done. eauto.
  - rewrite get_seo_metrics_miss, get_seo_metrics_body_eq by done.
    cbn zeta. eauto.
Qed.

End fetcher.

(** ** The status check *)

Lemma raise_for_status_error (r : response) :
  400 ≤ status_code r < 600 →
  ∃ e, raise_for_status r = Raise e ∧ exn_class e = HTTPError ∧ str e ≠ "".
Proof.
  intros Hs. unfold raise_for_status.
  case_bool_decide;
    [eexists; split; [done|split; [done|]];
     unfold str; cbn [exn_text]; by destruct (pretty (status_code r))|].
  case_bool_decide;
    [eexists; split; [done|split; [done|]];
     unfold str; cbn [exn_text]; by destruct (pretty (status_code r))|].
  lia.
Qed.

Lemma raise_for_status_pass (r : response) :
  ¬ (400 ≤ status_code r < 600) → raise_for_status r = Ret ().
Proof.
  intros Hs. unfold raise_for_status.
  repeat case_bool_decide; try done; lia.
Qed.

(** ** The two records *)

Lemma failure_record_fields (keyword : string) (e : exn) :
  failure_record keyword e !! "keyword" = Some (VStr keyword)
  ∧ failure_record keyword e !! "success" = Some (VBool false)
  ∧ failure_record keyword e !! "error" = Some (VStr (str e))
  ∧ failure_record keyword e !! "search_volume" = None
  ∧ failure_record keyword e !! "keyword_difficulty" = None.
Proof. by repeat split. Qed.

Lemma success_record_fields (keyword : string) (sv kd : val) :
  success_record keyword sv kd !! "keyword" = Some (VStr keyword)
  ∧ success_record keyword sv kd !! "success" = Some (VBool true)
  ∧ success_record keyword sv kd !! "search_volume" = Some sv
  ∧ success_record keyword sv kd !! "keyword_difficulty" = Some kd
  ∧ success_record keyword sv kd !! "error" = None.
Proof. by repeat split. Qed.

Lemma built_for_well_formed (keyword : string) (r : gmap string val) :
  built_for keyword r →
  well_formed r ∧ r !! "keyword" = Some (VStr keyword).
Proof.
  intros [(sv & kd & ->)|(e & ->)].
  - split; [left|done]. by repeat split.
  - split; [right|done]. by repeat split.
Qed.

Lemma extract_built_for (keyword : string) (o : outcome response) :
  built_for keyword (absorb keyword (o ≫= extract keyword)).
Proof.
  destruct o as [resp|e]; [|right; by eexists].
  unfold extract, mbind, outcome_bind.
  destruct (raise_for_status resp) as [[]|e]; [|right; by eexists].
  destruct (json resp) as [data|e]; [|right; by eexists].
  destruct (get data _ _) as [metadata|e]; [|right; by eexists].
  destruct (get metadata _ _) as [sv|e]; [|right; by eexists].
  destruct (get data _ _) as [kd|e]; [|right; by eexists].
  left. by eexists _, _.
Qed.

Section fetcher_invariant.
Variable net : endpoint.

Lemma get_seo_metrics_cache_ok keyword api_key st :
  cache_ok st.1 →
  cache_ok (get_seo_metrics net keyword api_key st).2.1
  ∧ ∃ r, (get_seo_metrics net keyword api_key st).1 = Ret r ∧ built_for keyword r.
Proof.
  destruct st as [cache w]. cbn [fst]. intros Hok.
  destruct (get_seo_metrics_cases keyword api_key cache w) as [(e & Hk & Ht)|Hk].
  - rewrite (get_seo_metrics_hit _ _ _ _ _ e) by done. cbn [fst snd].
    split; [done|]. exists (stored e). split; [done|]. by eapply Hok.
  - rewrite get_seo_metrics_miss, get_seo_metrics_body_eq by done.
    cbn [fst snd absorb].
    pose proof (extract_built_for keyword
                  (serve net (sent w) (metrics_request keyword api_key)).2) as Hb.
    split; [|eauto].
    intros keyword' api_key' e.
    destruct (decide ((keyword, api_key) = (keyword', api_key'))) as [[= <- <-]|Hne].
    + rewrite lookup_insert_eq. by intros [= <-].
    + rewrite lookup_insert_ne by done. apply Hok.
Qed.

Lemma step_cache_ok a st : cache_ok st.1 → cache_ok (step net a st).1.
Proof.
  intros Hok. destruct a as [keyword api_key|ms]; cbn [step].
  - by apply get_seo_metrics_cache_ok.
  - done.
Qed.

Lemma run_cache_ok history st : cache_ok st.1 → cache_ok (run net history st).1.
Proof.
  revert st. induction history as [|a history IH]; intros st Hok; [done|].
  apply (IH (step net a st)). by apply step_cache_ok.
Qed.

End fetcher_invariant.

Lemma cache_ok_empty : cache_ok ∅.
Proof. intros keyword api_key e. by rewrite lookup_empty. Qed.

(** ** Claims about the metrics fetcher *)

(** On a body that no exit signal cuts short, the [except Exception]
    clause is [ptry]. *)
Lemma itry_complete {S A} (body : prog S A) (handler : exn → prog S A) (s : S) :
  itry (complete body) (λ e, complete (handler e)) s
  = complete (ptry body handler) s.
Proof.
  unfold itry, complete, ptry. by destruct (body s) as [[a|e] s'].
Qed.

Section fetcher_signals.
Variable env : interruptible.
Implicit Types (keyword api_key : string) (w : world)
  (cache : gmap (string * string) (entry (gmap string val))).

(** The body under exit signals: a signal that arrives during
    [requests.get] leaves the body; without one the body is the one of
    [get_seo_metrics_body]. *)
Lemma get_seo_metrics_body_i_eq keyword api_key w :
  get_seo_metrics_body_i env keyword api_key w
  = match interrupt env (sent w) (metrics_request keyword api_key) with
    | Some (ms, sg) =>
        (Exits sg,
         World (clock w + Z.of_N ms)
               (sent w ++ [metrics_request keyword api_key]))
    | None => complete (get_seo_metrics_body (remote env) keyword api_key) w
    end.
Proof.
  unfold get_seo_metrics_body_i, itry, try_block_i, ibind, requests_get_i.
  cbn zeta. fold (metrics_request keyword api_key).
  destruct (interrupt env (sent w) (metrics_request keyword api_key))
    as [[ms sg]|]; [done|].
  unfold complete. rewrite get_seo_metrics_body_eq. cbn zeta.
  unfold requests_get, lift, pret.
  fold (metrics_request keyword api_key).
  destruct (serve (remote env) (sent w) (metrics_request keyword api_key))
    as [ms [resp|e]]; cbn [fst snd mbind outcome_bind absorb]; [|done].
  by destruct (extract keyword resp).
Qed.

Lemma get_seo_metrics_i_uninterrupted keyword api_key cache w :
  interrupt env (sent w) (metrics_request keyword api_key) = None →
  get_seo_metrics_i env keyword api_key (cache, w)
  = complete (get_seo_metrics (remote env) keyword api_key) (cache, w).
Proof.
  intros Hnone. unfold get_seo_metrics_i, get_seo_metrics, cached_i, cached, complete.
  rewrite get_seo_metrics_body_i_eq, Hnone. unfold complete.
  destruct (get_seo_metrics_body (remote env) keyword api_key w) as [[r|e] w'];
    destruct (cache !! (keyword, api_key)) as [e0|]; try done;
    by destruct (live (Some 3600) (clock w) e0).
Qed.

Lemma get_seo_metrics_i_interrupted keyword api_key cache w ms sg :
  interrupt env (sent w) (metrics_request keyword api_key) = Some (ms, sg) →
  (∀ e, cache !! (keyword, api_key) = Some e →
        inserted e + metrics_ttl_ms ≤ clock w) →
  get_seo_metrics_i env keyword api_key (cache, w)
  = (Exits sg,
     (cache, World (clock w + Z.of_N ms)
                   (sent w ++ [metrics_request keyword api_key]))).
Proof.
  intros Hsome Hmiss. unfold get_seo_metrics_i, cached_i.
  rewrite get_seo_metrics_body_i_eq, Hsome.
  destruct (cache !! (keyword, api_key)) as [e|] eqn:Hk; [|done].
  assert (live (Some 3600) (clock w) e = false) as ->; [|done].
  unfold live. apply Z.ltb_ge. specialize (Hmiss e eq_refl).
  unfold metrics_ttl_ms in Hmiss. lia.
Qed.

(** Whatever leaves a call is a record or a signal that arrived. *)
Lemma get_seo_metrics_i_ends keyword api_key cache w :
  match (get_seo_metrics_i env keyword api_key (cache, w)).1 with
  | Completed (Ret _) => True
  | Completed (Raise _) => False
  | Exits sg =>
      ∃ ms, interrupt env (sent w) (metrics_request keyword api_key)
            = Some (ms, sg)
  end.
Proof.
  destruct (interrupt env (sent w) (metrics_request keyword api_key))
    as [[ms sg]|] eqn:Hint.
  - destruct (get_seo_metrics_cases keyword api_key cache w)
      as [(e & Hk & Ht)|Hk].
    + unfold get_seo_metrics_i, cached_i. rewrite Hk.
      assert (live (Some 3600) (clock w) e = true) as ->; [|done].
      unfold live. apply Z.ltb_lt. unfold metrics_ttl_ms in Ht. lia.
    + rewrite (get_seo_metrics_i_interrupted _ _ _ _ ms sg) by done.
      cbn [fst]. by exists ms.
  - rewrite get_seo_metrics_i_uninterrupted by done. unfold complete.
    destruct (get_seo_metrics_returns (remote env) keyword api_key cache w)
      as (r & cache' & w' & ->). done.
Qed.

End fetcher_signals.




(** C2: in a process that starts with an empty cache, whatever calls and
    waits came before, the record [get_seo_metrics] returns has [success]
    true, both metrics fields and no [error] field, or [success] false, an
    [error] field and neither metrics field; its [keyword] is the one
    asked for. *)
Theorem metrics_record_shape (net : endpoint) (history : list action)
    (w0 : world) (keyword api_key : string) :
  ∃ r st',
    get_seo_metrics net keyword api_key (run net history (∅, w0)) = (Ret r, st')
    ∧ well_formed r
    ∧ r !! "keyword" = Some (VStr keyword)
    ∧ (dom r = {[ "keyword"; "search_volume"; "keyword_difficulty"; "success" ]}
       ∨ dom r = {[ "keyword"; "error"; "success" ]}).
Proof.
  pose proof (run_cache_ok net history (∅, w0) cache_ok_empty) as Hok.
  apply (get_seo_metrics_cache_ok net keyword api_key) in Hok
    as [_ (r & Hr & Hb)].
  destruct (get_seo_metrics net keyword api_key _) as [o st'].
  cbn [fst] in Hr. subst o. exists r, st'. split; [done|].
  destruct (built_for_well_formed _ _ Hb) as [Hwf Hkw].
  split; [done|]. split; [done|].
  destruct Hb as [(sv & kd & ->)|(e & ->)]; [left|right]; reflexivity.
Qed.

(** What a parsed body of another shape leads to: the attribute error of
    the first [get] that fails, absorbed like any other exception. *)
Lemma extract_other_shapes (net : endpoint) (keyword api_key : string)
    (cache : gmap (string * string) (entry (gmap string val))) (w : world)
    (response : response) (data : val) :
  (∀ e, cache !! (keyword, api_key) = Some e →
        inserted e + metrics_ttl_ms ≤ clock w) →
  (serve net (sent w) (metrics_request keyword api_key)).2 = Ret response →
  ¬ (400 ≤ status_code response < 600) →
  json response = Ret data →
  (get_seo_metrics net keyword api_key (cache, w)).1
  = Ret match data with
        | VDict d =>
            match d !! "search_metadata" with
            | None | Some (VDict _) =>
                absorb keyword (Ret response ≫= extract keyword)
            | Some v => failure_record keyword (no_get v)
            end
        | v => failure_record keyword (no_get v)
        end.
Proof.
  intros Hmiss Hserve Hstatus Hjson.
  rewrite get_seo_metrics_miss, get_seo_metrics_body_eq by done.
  cbn zeta. cbn [fst absorb]. rewrite Hserve. f_equal.
  unfold extract, mbind, outcome_bind.
  rewrite (raise_for_status_pass _ Hstatus), Hjson.
  destruct data as [| | | | | |d]; try done.
  cbn [get]. by destruct (d !! "search_metadata") as [[| | | | | |m]|].
Qed.

(** C4, as the code has it: on a 2xx response whose body parses to an
    object in which "search_metadata" is absent or is itself an object,
    [get_seo_metrics] returns a success record; its search_volume is the
    "total_results" of "search_metadata" and its keyword_difficulty the
    top-level "keyword_difficulty", each "N/A" when absent. *)
Theorem extract_defaults (net : endpoint) (keyword api_key : string)
    (cache : gmap (string * string) (entry (gmap string val))) (w : world)
    (response : response) (d metadata : gmap string val) :
  (∀ e, cache !! (keyword, api_key) = Some e →
        inserted e + metrics_ttl_ms ≤ clock w) →
  (serve net (sent w) (metrics_request keyword api_key)).2 = Ret response →
  200 ≤ status_code response < 300 →
  json response = Ret (VDict d) →
  default (VDict ∅) (d !! "search_metadata") = VDict metadata →
  ∃ r,
    (get_seo_metrics net keyword api_key (cache, w)).1 = Ret r
    ∧ r = success_record keyword
            (default (VStr "N/A") (metadata !! "total_results"))
            (default (VStr "N/A") (d !! "keyword_difficulty"))
    ∧ r !! "success" = Some (VBool true)
    ∧ r !! "search_volume"
      = Some (default (VStr "N/A") (metadata !! "total_results"))
    ∧ r !! "keyword_difficulty"
      = Some (default (VStr "N/A") (d !! "keyword_difficulty"))
    ∧ (metadata !! "total_results" = None →
       r !! "search_volume" = Some (VStr "N/A"))
    ∧ (d !! "keyword_difficulty" = None →
       r !! "keyword_difficulty" = Some (VStr "N/A")).
Proof.
  intros Hmiss Hserve Hstatus Hjson Hmeta.
  eexists. split; [|split; [reflexivity|]].
  - rewrite get_seo_metrics_miss, get_seo_metrics_body_eq by done.
    cbn zeta. cbn [fst absorb]. rewrite Hserve.
    unfold extract, mbind, outcome_bind.
    rewrite raise_for_status_pass by lia. rewrite Hjson. cbn [get].
    by rewrite Hmeta.
  - repeat split; try done.
    + by intros ->.
    + by intros ->.
Qed.

Lemma extract_defaults_witness :
  (∃ r,
     (get_seo_metrics
        (constant_endpoint 120 200 "OK"
           (Ret (VDict {[ "search_metadata" := VDict {[ "total_results" := VInt 7 ]} ]})))
        "seo" "secret" (∅, World 0 [])).1 = Ret r
     ∧ r = success_record "seo" (VInt 7) (VStr "N/A")
     ∧ r !! "keyword_difficulty" = Some (VStr "N/A"))
  ∧ (∃ r,
       (get_seo_metrics
          (constant_endpoint 120 200 "OK"
             (Ret (VDict {[ "keyword_difficulty" := VInt 40 ]})))
          "seo" "secret" (∅, World 0 [])).1 = Ret r
       ∧ r = success_record "seo" (VStr "N/A") (VInt 40)
       ∧ r !! "search_volume" = Some (VStr "N/A")).
Proof.
  split.
  - destruct (extract_defaults
                (constant_endpoint 120 200 "OK"
                   (Ret (VDict {[ "search_metadata" := VDict {[ "total_results" := VInt 7 ]} ]})))
                "seo" "secret" ∅ (World 0 [])
                (Response 200 "OK" SERPAPI_URL
                   (Ret (VDict {[ "search_metadata" := VDict {[ "total_results" := VInt 7 ]} ]})))
                {[ "search_metadata" := VDict {[ "total_results" := VInt 7 ]} ]}
                {[ "total_results" := VInt 7 ]})
      as (r & Hr & Heq & _ & _ & _ & _ & Hkd).
    + intros e. rewrite lookup_empty. discriminate.
    + reflexivity.
    + simpl. lia.
    + reflexivity.
    + reflexivity.
    + exists r. split; [exact Hr|]. split; [exact Heq|].
      apply Hkd. reflexivity.
  - destruct (extract_defaults
                (constant_endpoint 120 200 "OK"
                   (Ret (VDict {[ "keyword_difficulty" := VInt 40 ]})))
                "seo" "secret" ∅ (World 0 [])
                (Response 200 "OK" SERPAPI_URL
                   (Ret (VDict {[ "keyword_difficulty" := VInt 40 ]})))
                {[ "keyword_difficulty" := VInt 40 ]} ∅)
      as (r & Hr & Heq & _ & _ & _ & Hsv & _).
    + intros e. rewrite lookup_empty. discriminate.
    + reflexivity.
    + simpl. lia.
    + reflexivity.
    + reflexivity.
    + exists r. split; [exact Hr|]. split; [exact Heq|].
      apply Hsv. reflexivity.
Defined.

(** C4 as stated fails: a 200 response whose body is the object
    [{"search_metadata": null, "keyword_difficulty": 40}] has no
    "total_results", yet the record is a failure record, not one with
    search_volume "N/A" and [success] true; so is the record for the
    body [[]], in which both fields are absent. *)
Lemma extract_null_metadata :
  (∃ r,
     (get_seo_metrics
        (constant_endpoint 120 200 "OK"
           (Ret (VDict {[ "search_metadata" := VNone;
                          "keyword_difficulty" := VInt 40 ]})))
        "seo" "secret" (∅, World 0 [])).1 = Ret r
     ∧ r !! "success" = Some (VBool false)
     ∧ r !! "search_volume" = None
     ∧ r !! "error" = Some (VStr "'NoneType' object has no attribute 'get'"))
  ∧ (∃ r,
       (get_seo_metrics (constant_endpoint 120 200 "OK" (Ret (VList [])))
          "seo" "secret" (∅, World 0 [])).1 = Ret r
       ∧ r !! "success" = Some (VBool false)
       ∧ r !! "search_volume" = None ∧ r !! "keyword_difficulty" = None
       ∧ r !! "error" = Some (VStr "'list' object has no attribute 'get'")).
Proof. split; eexists; by repeat split. Qed.

(** ** The metrics cache over time *)

Section fetcher_cache.
Variable net : endpoint.
Implicit Types (st : gmap (string * string) (entry (gmap string val)) * world).

Lemma get_seo_metrics_clock keyword api_key st :
  clock st.2 ≤ clock (get_seo_metrics net keyword api_key st).2.2.
Proof.
  destruct st as [cache w].
  destruct (get_seo_metrics_cases keyword api_key cache w) as [(e & Hk & Ht)|Hk].
  - by rewrite (get_seo_metrics_hit _ _ _ _ _ e).
  - rewrite get_seo_metrics_miss, get_seo_metrics_body_eq by done.
    cbn zeta. cbn [fst snd clock]. lia.
Qed.

Lemma step_clock a st : clock st.2 ≤ clock (step net a st).2.
Proof.
  destruct a as [keyword api_key|ms]; cbn [step].
  - apply get_seo_metrics_clock.
  - cbn [snd]. unfold time_sleep.
    destruct (Z.ltb_spec (Z.of_N ms) 0); cbn [snd clock]; lia.
Qed.

Lemma run_clock history st : clock st.2 ≤ clock (run net history st).2.
Proof.
  revert st. induction history as [|a history IH]; intros st; [done|].
  etrans; [apply (step_clock a)|apply (IH (step net a st))].
Qed.

(** A call leaves the entries of the other keys alone, and a live entry of
    its own key too. *)
Lemma get_seo_metrics_keeps keyword api_key st k e :
  st.1 !! k = Some e →
  clock st.2 < inserted e + metrics_ttl_ms →
  (get_seo_metrics net keyword api_key st).2.1 !! k = Some e.
Proof.
  destruct st as [cache w]. cbn [fst snd]. intros Hk Ht.
  destruct (get_seo_metrics_cases keyword api_key cache w)
    as [(e' & Hk' & Ht')|Hk'].
  - by rewrite (get_seo_metrics_hit _ _ _ _ _ e').
  - rewrite get_seo_metrics_miss, get_seo_metrics_body_eq by done.
    cbn zeta. cbn [fst snd].
    destruct (decide ((keyword, api_key) = k)) as [<-|Hne].
    + specialize (Hk' e Hk). lia.
    + by rewrite lookup_insert_ne.
Qed.

Lemma run_keeps history st k e :
  st.1 !! k = Some e →
  clock (run net history st).2 < inserted e + metrics_ttl_ms →
  (run net history st).1 !! k = Some e.
Proof.
  revert st. induction history as [|a history IH]; intros st Hk Ht; [done|].
  change (run net (a :: history) st)
    with (run net history (step net a st)) in *.
  pose proof (run_clock history (step net a st)) as Hrun.
  pose proof (step_clock a st) as Hstep.
  apply IH; [|done].
  destruct a as [keyword api_key|ms]; cbn [step fst]; [|done].
  apply get_seo_metrics_keeps; [done|]. lia.
Qed.

(** What a call leaves in the cache under its own key is what it
    returned. *)
Lemma get_seo_metrics_stores keyword api_key st :
  ∃ r e,
    (get_seo_metrics net keyword api_key st).1 = Ret r
    ∧ (get_seo_metrics net keyword api_key st).2.1 !! (keyword, api_key) = Some e
    ∧ stored e = r
    ∧ ((∀ e0, st.1 !! (keyword, api_key) = Some e0 →
              inserted e0 + metrics_ttl_ms ≤ clock st.2) →
       inserted e = clock (get_seo_metrics net keyword api_key st).2.2).
Proof.
  destruct st as [cache w]. cbn [fst snd].
  destruct (get_seo_metrics_cases keyword api_key cache w) as [(e & Hk & Ht)|Hk].
  - rewrite (get_seo_metrics_hit _ _ _ _ _ e) by done. cbn [fst snd].
    exists (stored e), e. repeat split; try done.
    intros Hmiss. specialize (Hmiss e Hk). lia.
  - rewrite get_seo_metrics_miss, get_seo_metrics_body_eq by done.
    cbn zeta. cbn [fst snd]. eexists _, _. split; [done|].
    split; [apply lookup_insert_eq|]. done.
Qed.

End fetcher_cache.

(** C5: a call of [get_seo_metrics] leaves its record in the cache; a later
    call with the same keyword and credential, made while the clock is less
    than 3600 seconds past the entry's insertion, whatever calls and waits
    came between, returns the very same record and changes neither the
    cache nor the list of requests sent.  A call made when the entry is
    3600 seconds old or older sends one new request and stores what it
    returns. *)
Theorem cache_coherence (net : endpoint) (keyword api_key : string)
    (st : gmap (string * string) (entry (gmap string val)) * world)
    (between : list action) :
  ∃ r e,
    (get_seo_metrics net keyword api_key st).1 = Ret r
    ∧ (get_seo_metrics net keyword api_key st).2.1 !! (keyword, api_key) = Some e
    ∧ stored e = r
    ∧ ((∀ e0, st.1 !! (keyword, api_key) = Some e0 →
              inserted e0 + 1000 * 3600 ≤ clock st.2) →
       inserted e = clock (get_seo_metrics net keyword api_key st).2.2)
    ∧ (let st2 := run net between (get_seo_metrics net keyword api_key st).2 in
       clock st2.2 < inserted e + 1000 * 3600 →
       get_seo_metrics net keyword api_key st2 = (Ret r, st2))
    ∧ (∀ cache w,
         cache !! (keyword, api_key) = Some e →
         inserted e + 1000 * 3600 ≤ clock w →
         ∃ r' w',
           get_seo_metrics net keyword api_key (cache, w)
           = (Ret r', (<[(keyword, api_key) := Entry r' (clock w')]> cache, w'))
           ∧ sent w' = sent w ++ [metrics_request keyword api_key]).
Proof.
  destruct (get_seo_metrics_stores net keyword api_key st)
    as (r & e & Hr & Hk & Hst & Hins).
  exists r, e. repeat split; try done.
  - intros st2 Ht. subst st2.
    pose proof (run_keeps net between _ _ e Hk Ht) as Hk2.
    destruct (run net between _) as [cache2 w2]. cbn [fst snd] in *.
    rewrite (get_seo_metrics_hit _ _ _ _ _ e) by done. by rewrite Hst.
  - intros cache w Hc Ht.
    rewrite get_seo_metrics_miss, get_seo_metrics_body_eq.
    + cbn zeta. cbn [absorb]. eexists _, _. split; [reflexivity|done].
    + intros e' He'. rewrite Hc in He'. injection He' as <-. done.
Qed.

Lemma cache_coherence_witness :
  ∃ r,
    (get_seo_metrics (constant_endpoint 120 401 "Unauthorized" (Ret VNone))
       "seo" "badkey" (∅, World 0 [])).1 = Ret r
    ∧ (let st2 :=
         run (constant_endpoint 120 401 "Unauthorized" (Ret VNone))
           [Wait 1000; CallFetch "ranking" "badkey"; Wait 3000000]
           (get_seo_metrics (constant_endpoint 120 401 "Unauthorized" (Ret VNone))
              "seo" "badkey" (∅, World 0 [])).2 in
       get_seo_metrics (constant_endpoint 120 401 "Unauthorized" (Ret VNone))
         "seo" "badkey" st2 = (Ret r, st2))
    ∧ (let st1 :=
         (get_seo_metrics (constant_endpoint 120 401 "Unauthorized" (Ret VNone))
            "seo" "badkey" (∅, World 0 [])).2 in
       ∃ r' w',
         get_seo_metrics (constant_endpoint 120 401 "Unauthorized" (Ret VNone))
           "seo" "badkey" (st1.1, World 3600120 (sent st1.2))
         = (Ret r', (<[("seo", "badkey") := Entry r' (clock w')]> st1.1, w'))
         ∧ sent w' = sent st1.2 ++ [metrics_request "seo" "badkey"]).
Proof.
  destruct (cache_coherence
              (constant_endpoint 120 401 "Unauthorized" (Ret VNone))
              "seo" "badkey" (∅, World 0 [])
              [Wait 1000; CallFetch "ranking" "badkey"; Wait 3000000])
    as (r & e & Hr & Hk & _ & Hins & Hhit & Hexpired).
  assert (inserted e = 120) as Hi.
  { rewrite Hins.
    - vm_compute. reflexivity.
    - intros e0. cbn [fst]. rewrite lookup_empty. discriminate. }
  exists r. split; [exact Hr|]. split.
  - apply Hhit. rewrite Hi. vm_compute. reflexivity.
  - intros st1.
    apply (Hexpired st1.1 (World 3600120 (sent st1.2))).
    + exact Hk.
    + rewrite Hi. cbn [clock]. lia.
Defined.

(** * Properties of the analysis loop *)

Section loop.
Variable net : endpoint.
Variables (api_key : string) (analysis_limit : Z).

Lemma fetch_calls_app (t1 t2 : list event) :
  fetch_calls (t1 ++ t2) = fetch_calls t1 ++ fetch_calls t2.
Proof. apply omap_app. Qed.

(** One iteration, for an index within the limit. *)
Lemma loop_body_run (i : Z) (keyword : string) (a : app_state) :
  0 ≤ i → i + 1 ≤ analysis_limit →
  ∃ r a',
    loop_body net api_key analysis_limit i keyword a = (Ret (), a')
    ∧ results a' = results a ++ [r]
    ∧ fetch_calls (trace a') = fetch_calls (trace a) ++ [(keyword, api_key, r)].
Proof.
  intros Hi Hk.
  destruct (get_seo_metrics_returns net keyword api_key
              (metrics_cache a) (outside a)) as (r & cache' & w' & Hr).
  exists r.
  unfold loop_body, pbind, status_text_text, emit, call_get_seo_metrics.
  cbn [results trace metrics_cache outside]. rewrite Hr.
  unfold results_append, progress_bar_progress.
  cbn [results trace metrics_cache outside].
  rewrite bool_decide_eq_false_2 by lia.
  rewrite bool_decide_eq_true_2 by lia.
  unfold emit, sleep_200ms, time_sleep.
  cbn [results trace metrics_cache outside Z.ltb Z.compare].
  eexists. split; [reflexivity|]. cbn [results trace]. split; [done|].
  rewrite !fetch_calls_app. cbn. by rewrite !app_nil_r.
Qed.

Lemma for_enumerate_run (l : list string) (i : Z) (a : app_state) :
  0 ≤ i → i + Z.of_nat (length l) ≤ analysis_limit →
  ∃ rs a',
    for_enumerate (loop_body net api_key analysis_limit) i l a = (Ret (), a')
    ∧ results a' = results a ++ rs
    ∧ length rs = length l
    ∧ fetch_calls (trace a')
      = fetch_calls (trace a) ++ zip_with (λ kw r, (kw, api_key, r)) l rs.
Proof.
  revert i a. induction l as [|keyword l IH]; intros i a Hi Hk.
  - exists [], a. cbn. by rewrite !app_nil_r.
  - cbn [length] in Hk.
    destruct (loop_body_run i keyword a) as (r & a1 & Hbody & Hres & Hcalls);
      [lia..|].
    destruct (IH (i + 1) a1) as (rs & a' & Hrest & Hres' & Hlen & Hcalls');
      [lia..|].
    exists (r :: rs), a'. cbn [for_enumerate]. unfold pbind at 1.
    rewrite Hbody, Hrest. split; [done|].
    rewrite Hres', Hres, Hcalls', Hcalls, <- !app_assoc.
    cbn. by rewrite Hlen.
Qed.

End loop.


(** * Further properties of the keyword expander *)

Lemma str_replace_absent (old new : Ascii.ascii) (s : string) :
  str_contains old s = false → str_replace old new s = s.
Proof.
  induction s as [|c s IH]; simpl; [done|].
  intros [Hc Hs]%orb_false_iff. by rewrite Hc, IH.
Qed.

Lemma length_variants_of (syns : list synset) :
  length (variants_of syns) = lemma_count syns.
Proof.
  unfold variants_of, lemma_count.
  induction syns as [|syn syns IH]; [done|].
  cbn. rewrite length_app, length_fmap. unfold variants_of in IH.
  by rewrite IH.
Qed.

Lemma variants_of_nil (syns : list synset) :
  variants_of syns = [] ↔ Forall (λ syn, lemmas syn = []) syns.
Proof.
  unfold variants_of. induction syns as [|syn syns IH]; [by split|].
  cbn. rewrite Forall_cons, <- IH. split.
  - intros [Hl Hr]%app_eq_nil. split; [|done]. by apply fmap_nil_inv in Hl.
  - intros [-> ->]. done.
Qed.

(** X1: every lemma of every sense the lookup returns is represented in
    the result of [generate_keywords] by its name with the underscores
    turned into spaces; a name without underscore is there verbatim, with
    its case and every other character untouched. *)
Theorem expand_complete {order : SetOrder} (wordnet : snapshot)
    (seed : string) (syns : list synset) (syn : synset) (l : lemma) :
  synsets wordnet seed = Ret syns → syn ∈ syns → l ∈ lemmas syn →
  ∃ vs, generate_keywords wordnet seed = Ret vs
        ∧ str_replace "_" " " (lemma_name l) ∈ vs
        ∧ (str_contains "_" (lemma_name l) = false → lemma_name l ∈ vs).
Proof.
  intros Hs Hsyn Hl. eexists. split; [by apply generate_keywords_returns|].
  assert (str_replace "_" " " (lemma_name l) ∈ list_set (variants_of syns)) as Hin.
  { apply list_set_elem, elem_of_variants_of. by exists syn, l. }
  split; [done|]. intros Hc. by rewrite (str_replace_absent _ _ _ Hc) in Hin.
Qed.

Lemma expand_complete_witness :
  ∃ vs, generate_keywords (order := first_seen_order)
          (answering [Synset "bank.n.01"
                        [Lemma_ "depository_financial_institution";
                         Lemma_ "Bank"]]) "bank" = Ret vs
        ∧ "depository financial institution" ∈ vs ∧ "Bank" ∈ vs.
Proof.
  destruct (expand_complete (order := first_seen_order)
              (answering [Synset "bank.n.01"
                            [Lemma_ "depository_financial_institution";
                             Lemma_ "Bank"]]) "bank"
              [Synset "bank.n.01"
                 [Lemma_ "depository_financial_institution"; Lemma_ "Bank"]]
              (Synset "bank.n.01"
                 [Lemma_ "depository_financial_institution"; Lemma_ "Bank"])
              (Lemma_ "Bank")) as (vs & Hvs & _ & Hin).
  - reflexivity.
  - apply list_elem_of_here.
  - apply list_elem_of_further, list_elem_of_here.
  - exists vs. split; [exact Hvs|]. split; [|apply Hin; reflexivity].
    destruct (expand_complete (order := first_seen_order)
                (answering [Synset "bank.n.01"
                              [Lemma_ "depository_financial_institution";
                               Lemma_ "Bank"]]) "bank"
                [Synset "bank.n.01"
                   [Lemma_ "depository_financial_institution"; Lemma_ "Bank"]]
                (Synset "bank.n.01"
                   [Lemma_ "depository_financial_institution"; Lemma_ "Bank"])
                (Lemma_ "depository_financial_institution"))
      as (vs' & Hvs' & Hin' & _).
    + reflexivity.
    + apply list_elem_of_here.
    + apply list_elem_of_here.
    + rewrite Hvs in Hvs'. injection Hvs' as <-. exact Hin'.
Defined.

(** X2: [generate_keywords] never returns more variants than the senses
    have lemmas, and it returns the empty list exactly when no sense has a
    lemma. *)
Theorem expand_size {order : SetOrder} (wordnet : snapshot) (seed : string)
    (syns : list synset) :
  synsets wordnet seed = Ret syns →
  ∃ vs, generate_keywords wordnet seed = Ret vs
        ∧ (length vs ≤ lemma_count syns)%nat
        ∧ (vs = [] ↔ Forall (λ syn, lemmas syn = []) syns).
Proof.
  intros Hs. eexists. split; [by apply generate_keywords_returns|]. split.
  - rewrite <- length_variants_of. apply submseteq_length, NoDup_submseteq.
    + apply list_set_NoDup.
    + intros x. by rewrite list_set_elem.
  - rewrite <- variants_of_nil. split.
    + intros Hnil. apply elem_of_nil_inv. intros x Hx.
      apply list_set_elem in Hx. rewrite Hnil in Hx. by apply not_elem_of_nil in Hx.
    + intros ->. apply elem_of_nil_inv. intros x. rewrite list_set_elem.
      apply not_elem_of_nil.
Qed.

Lemma expand_size_witness :
  ∃ vs, generate_keywords (order := first_seen_order) bank_db "bank" = Ret vs
        ∧ (length vs ≤ 4)%nat.
Proof.
  destruct (expand_size (order := first_seen_order) bank_db "bank" bank_senses)
    as (vs & Hvs & Hlen & _).
  - reflexivity.
  - exists vs. split; [exact Hvs|exact Hlen].
Defined.

(** X3: the order in which the lookup lists the senses does not matter to
    the set of variants: two lookups that answer with the same senses in
    different orders give results that are permutations of each other. *)
Theorem expand_sense_order {order : SetOrder} (wordnet wordnet' : snapshot)
    (seed seed' : string) (syns syns' : list synset) :
  synsets wordnet seed = Ret syns → synsets wordnet' seed' = Ret syns' →
  syns ≡ₚ syns' →
  ∃ vs vs', generate_keywords wordnet seed = Ret vs
            ∧ generate_keywords wordnet' seed' = Ret vs'
            ∧ vs ≡ₚ vs'.
Proof.
  intros Hs Hs' Hp. eexists _, _.
  split; [by apply generate_keywords_returns|].
  split; [by apply generate_keywords_returns|].
  apply NoDup_Permutation; try apply list_set_NoDup.
  intros x. rewrite !list_set_elem. unfold variants_of. by rewrite Hp.
Qed.

Lemma expand_sense_order_witness :
  ∃ vs vs',
    generate_keywords (order := first_seen_order) (answering bank_senses) "bank"
    = Ret vs
    ∧ generate_keywords (order := first_seen_order)
        (answering (reverse bank_senses)) "bank" = Ret vs'
    ∧ vs ≡ₚ vs'.
Proof.
  apply (expand_sense_order (order := first_seen_order)
           (answering bank_senses) (answering (reverse bank_senses))
           "bank" "bank" bank_senses (reverse bank_senses)).
  - reflexivity.
  - reflexivity.
  - symmetry. apply reverse_Permutation.
Defined.

(** A call that returns leaves what it returned under its seed. *)
Lemma generate_keywords_cached_stores {order : SetOrder} (wordnet : snapshot)
    (seed : string) (st : gmap string (entry (list string)) * world)
    (vs : list string) :
  (generate_keywords_cached wordnet seed st).1 = Ret vs →
  ∃ e, (generate_keywords_cached wordnet seed st).2.1 !! seed = Some e
       ∧ stored e = vs.
Proof.
  destruct st as [cache w]. intros Hr.
  destruct (cache !! seed) as [e|] eqn:Hk.
  - rewrite (generate_keywords_cached_hit wordnet seed cache w e Hk) in Hr |- *.
    cbn [fst snd] in *. injection Hr as <-. by exists e.
  - rewrite (generate_keywords_cached_miss wordnet seed cache w Hk) in Hr |- *.
    destruct (generate_keywords wordnet seed) as [vs0|e]; [|done].
    cbn [fst snd] in *. injection Hr as ->.
    exists (Entry vs (clock w)). split; [apply lookup_insert_eq|done].
Qed.

(** No call of the memoised function changes an entry that is there. *)
Lemma generate_keywords_cached_keeps {order : SetOrder} (wordnet : snapshot)
    (seed' : string) (st : gmap string (entry (list string)) * world)
    (seed : string) (e : entry (list string)) :
  st.1 !! seed = Some e →
  (generate_keywords_cached wordnet seed' st).2.1 !! seed = Some e.
Proof.
  destruct st as [cache w]. cbn [fst]. intros Hk.
  destruct (cache !! seed') as [e'|] eqn:Hk'.
  - by rewrite (generate_keywords_cached_hit wordnet seed' cache w e' Hk').
  - rewrite (generate_keywords_cached_miss wordnet seed' cache w Hk').
    destruct (generate_keywords wordnet seed') as [vs|e0]; cbn [fst snd];
      [|done].
    rewrite lookup_insert_ne; [done|]. intros ->. congruence.
Qed.

Lemma expand_history_keeps (calls : list expand_call)
    (cache : gmap string (entry (list string))) (seed : string)
    (e : entry (list string)) :
  cache !! seed = Some e → expand_history calls cache !! seed = Some e.
Proof.
  revert cache. induction calls as [|c calls IH]; intros cache Hk; [done|].
  cbn. apply IH.
  by apply (generate_keywords_cached_keeps (order := call_order c)
              (call_wordnet c) (call_seed c) (cache, call_world c)).
Qed.

(** X4: the memoised [generate_keywords] has no expiry and does not look
    at the database on a hit: once a call has returned a list for a seed,
    every later call for that seed returns that list and leaves the cache
    as it is, whatever calls of the function, for this seed or others,
    came between, at whatever time and against whatever snapshot the
    later calls are made. *)
Theorem expand_cache_never_expires (order order' : SetOrder)
    (wordnet wordnet' : snapshot) (seed : string)
    (st : gmap string (entry (list string)) * world) (vs : list string)
    (between : list expand_call) (w' : world) :
  (generate_keywords_cached (order := order) wordnet seed st).1 = Ret vs →
  let cache1 :=
    expand_history between
      (generate_keywords_cached (order := order) wordnet seed st).2.1 in
  generate_keywords_cached (order := order') wordnet' seed (cache1, w')
  = (Ret vs, (cache1, w')).
Proof.
  intros Hr cache1.
  destruct (generate_keywords_cached_stores (order := order) wordnet seed st vs Hr)
    as (e & Hk & Hst).
  pose proof (expand_history_keeps between _ seed e Hk) as Hk1.
  fold cache1 in Hk1.
  rewrite (generate_keywords_cached_hit (order := order') wordnet' seed cache1 w' e Hk1).
  by rewrite Hst.
Qed.

Lemma expand_cache_never_expires_witness :
  let cache1 :=
    expand_history
      [ExpandCall last_seen_order (answering []) "bank" (World 5 []);
       ExpandCall first_seen_order bank_db "riverbank" (World 7 [])]
      (generate_keywords_cached (order := first_seen_order) bank_db "bank"
         (∅, World 0 [])).2.1 in
  generate_keywords_cached (order := last_seen_order) (answering []) "bank"
    (cache1, World 999999999999 [])
  = (Ret ["depository"; "bank"; "riverbank"], (cache1, World 999999999999 [])).
Proof.
  apply (expand_cache_never_expires first_seen_order last_seen_order
           bank_db (answering []) "bank" (∅, World 0 [])
           ["depository"; "bank"; "riverbank"]
           [ExpandCall last_seen_order (answering []) "bank" (World 5 []);
            ExpandCall first_seen_order bank_db "riverbank" (World 7 [])]
           (World 999999999999 [])).
  reflexivity.
Defined.

(** * Further properties of the metrics fetcher *)

Lemma get_seo_metrics_sent (net : endpoint) (keyword api_key : string)
    (st : gmap (string * string) (entry (gmap string val)) * world) :
  sent (get_seo_metrics net keyword api_key st).2.2 = sent st.2
  ∧ (get_seo_metrics net keyword api_key st).2 = st
  ∨ sent (get_seo_metrics net keyword api_key st).2.2
    = sent st.2 ++ [metrics_request keyword api_key].
Proof.
  destruct st as [cache w].
  destruct (get_seo_metrics_cases keyword api_key cache w) as [(e & Hk & Ht)|Hk].
  - left. by rewrite (get_seo_metrics_hit _ _ _ _ _ e).
  - right. by rewrite get_seo_metrics_miss, get_seo_metrics_body_eq.
Qed.

(** X5: a call of [get_seo_metrics] never sends more than one request.
    When the cache holds an entry for the keyword and the credential that
    is less than 3600 seconds old, the call returns the stored record,
    sends nothing and leaves the cache and the world as they are; in every
    other case it sends exactly one request.  The request is the GET of
    the search URL with the parameters q (the keyword), api_key (the
    credential) and num = 5 and nothing else, and a timeout of 10. *)
Theorem fetch_sends_at_most_once (net : endpoint) (keyword api_key : string)
    (st : gmap (string * string) (entry (gmap string val)) * world) :
  (sent (get_seo_metrics net keyword api_key st).2.2 = sent st.2
   ∧ (get_seo_metrics net keyword api_key st).2 = st
   ∨ sent (get_seo_metrics net keyword api_key st).2.2
     = sent st.2 ++ [metrics_request keyword api_key])
  ∧ (∀ e, st.1 !! (keyword, api_key) = Some e →
          clock st.2 < inserted e + 1000 * 3600 →
          get_seo_metrics net keyword api_key st = (Ret (stored e), st))
  ∧ ((∀ e, st.1 !! (keyword, api_key) = Some e →
           inserted e + 1000 * 3600 ≤ clock st.2) →
     sent (get_seo_metrics net keyword api_key st).2.2
     = sent st.2 ++ [metrics_request keyword api_key])
  ∧ req_url (metrics_request keyword api_key) = "https://serpapi.com/search.json"
  ∧ req_timeout (metrics_request keyword api_key) = 10
  ∧ req_params (metrics_request keyword api_key) !! "q" = Some (VStr keyword)
  ∧ req_params (metrics_request keyword api_key) !! "api_key" = Some (VStr api_key)
  ∧ req_params (metrics_request keyword api_key) !! "num" = Some (VInt 5)
  ∧ dom (req_params (metrics_request keyword api_key))
    = {[ "q"; "api_key"; "num" ]}.
Proof.
  split; [apply get_seo_metrics_sent|].
  split; [|split; [|by repeat split]].
  - destruct st as [cache w]. cbn [fst snd]. intros e Hk Ht.
    by apply get_seo_metrics_hit.
  - destruct st as [cache w]. cbn [fst snd]. intros Hmiss.
    by rewrite get_seo_metrics_miss, get_seo_metrics_body_eq.
Qed.

Lemma fetch_sends_at_most_once_witness :
  get_seo_metrics (constant_endpoint 120 200 "OK" (Ret (VDict ∅))) "seo" "key"
    ({[ ("seo", "key") := Entry (failure_record "seo" (Exn Timeout "timed out")) 0 ]},
     World 3599999 [])
  = (Ret (failure_record "seo" (Exn Timeout "timed out")),
     ({[ ("seo", "key") := Entry (failure_record "seo" (Exn Timeout "timed out")) 0 ]},
      World 3599999 []))
  ∧ sent (get_seo_metrics (constant_endpoint 120 200 "OK" (Ret (VDict ∅)))
            "seo" "key"
            ({[ ("seo", "key")
                := Entry (failure_record "seo" (Exn Timeout "timed out")) 0 ]},
             World 3600000 [])).2.2
    = [metrics_request "seo" "key"].
Proof.
  split.
  - destruct (fetch_sends_at_most_once
                (constant_endpoint 120 200 "OK" (Ret (VDict ∅))) "seo" "key"
                ({[ ("seo", "key")
                    := Entry (failure_record "seo" (Exn Timeout "timed out")) 0 ]},
                 World 3599999 [])) as (_ & Hhit & _).
    apply (Hhit (Entry (failure_record "seo" (Exn Timeout "timed out")) 0)).
    + apply lookup_singleton_eq.
    + cbn [snd clock inserted]. lia.
  - destruct (fetch_sends_at_most_once
                (constant_endpoint 120 200 "OK" (Ret (VDict ∅))) "seo" "key"
                ({[ ("seo", "key")
                    := Entry (failure_record "seo" (Exn Timeout "timed out")) 0 ]},
                 World 3600000 [])) as (_ & _ & Hmiss & _).
    apply Hmiss. intros e. cbn [fst snd clock].
    rewrite lookup_singleton_eq. intros [= <-]. cbn [inserted]. lia.
Defined.

Section fetcher_domain.
Variable net : endpoint.

Lemma get_seo_metrics_dom keyword api_key st :
  dom (get_seo_metrics net keyword api_key st).2.1
  = dom st.1 ∪ {[ (keyword, api_key) ]}.
Proof.
  destruct st as [cache w]. cbn [fst].
  destruct (get_seo_metrics_cases keyword api_key cache w) as [(e & Hk & Ht)|Hk].
  - rewrite (get_seo_metrics_hit _ _ _ _ _ e) by done. cbn [fst snd].
    apply (elem_of_dom_2 (D := gset (string * string))) in Hk. set_solver.
  - rewrite get_seo_metrics_miss, get_seo_metrics_body_eq by done.
    cbn zeta. cbn [fst snd]. rewrite dom_insert_L. set_solver.
Qed.

Lemma run_dom history st :
  dom (run net history st).1 = dom st.1 ∪ list_to_set (called history).
Proof.
  revert st. induction history as [|a history IH]; intros st.
  - cbn. set_solver.
  - change (run net (a :: history) st) with (run net history (step net a st)).
    rewrite IH. destruct a as [keyword api_key|ms]; cbn [step called omap fst].
    + rewrite get_seo_metrics_dom. fold (called history). set_solver.
    + fold (called history). done.
Qed.

End fetcher_domain.

(** X6: in a process that starts with an empty cache, the keys of the
    metrics cache are exactly the (keyword, credential) pairs
    [get_seo_metrics] has been called on: every call leaves an entry, a
    failed one too, and no entry is ever dropped.  So a call on a pair not
    called before is never answered from the cache: it sends its request,
    whichever other keywords or credentials have been used. *)
Theorem cache_keys_are_the_calls (net : endpoint) (history : list action)
    (w0 : world) (keyword api_key : string) :
  dom (run net history (∅, w0)).1 = list_to_set (called history)
  ∧ ((keyword, api_key) ∉ called history →
     sent (get_seo_metrics net keyword api_key (run net history (∅, w0))).2.2
     = sent (run net history (∅, w0)).2 ++ [metrics_request keyword api_key]).
Proof.
  assert (dom (run net history (∅, w0)).1
          = (list_to_set (called history) : gset (string * string))) as Hdom.
  { rewrite run_dom. cbn [fst]. rewrite dom_empty_L. set_solver. }
  split; [done|]. intros Hnew.
  destruct (run net history (∅, w0)) as [cache w] eqn:Hrun. cbn [fst snd] in *.
  rewrite get_seo_metrics_miss, get_seo_metrics_body_eq; [done|].
  intros e He. apply (elem_of_dom_2 (D := gset (string * string))) in He.
  rewrite Hdom, elem_of_list_to_set in He. done.
Qed.

Lemma cache_keys_are_the_calls_witness :
  sent (get_seo_metrics (constant_endpoint 120 200 "OK" (Ret (VDict ∅)))
          "seo" "key2"
          (run (constant_endpoint 120 200 "OK" (Ret (VDict ∅)))
             [CallFetch "seo" "key1"; Wait 10] (∅, World 0 []))).2.2
  = sent (run (constant_endpoint 120 200 "OK" (Ret (VDict ∅)))
            [CallFetch "seo" "key1"; Wait 10] (∅, World 0 [])).2
    ++ [metrics_request "seo" "key2"].
Proof.
  apply (cache_keys_are_the_calls
           (constant_endpoint 120 200 "OK" (Ret (VDict ∅)))
           [CallFetch "seo" "key1"; Wait 10] (World 0 []) "seo" "key2").
  cbn. rewrite elem_of_cons, elem_of_nil. intros [[=]|[]].
Defined.

(** X7: the status check fails the call for the 4xx and 5xx codes only.
    A response with any other status, a 1xx or a 3xx as well as a 2xx,
    whose body parses to an object in which "search_metadata" is absent or
    an object, gives a success record. *)
Theorem other_status_is_success (net : endpoint) (keyword api_key : string)
    (cache : gmap (string * string) (entry (gmap string val))) (w : world)
    (response : response) (d metadata : gmap string val) :
  (∀ e, cache !! (keyword, api_key) = Some e →
        inserted e + metrics_ttl_ms ≤ clock w) →
  (serve net (sent w) (metrics_request keyword api_key)).2 = Ret response →
  ¬ (400 ≤ status_code response < 600) →
  json response = Ret (VDict d) →
  default (VDict ∅) (d !! "search_metadata") = VDict metadata →
  (get_seo_metrics net keyword api_key (cache, w)).1
  = Ret (success_record keyword
           (default (VStr "N/A") (metadata !! "total_results"))
           (default (VStr "N/A") (d !! "keyword_difficulty"))).
Proof.
  intros Hmiss Hserve Hstatus Hjson Hmeta.
  rewrite (extract_other_shapes net keyword api_key cache w response (VDict d))
    by done.
  f_equal.
  assert (absorb keyword (Ret response ≫= extract keyword)
          = success_record keyword
              (default (VStr "N/A") (metadata !! "total_results"))
              (default (VStr "N/A") (d !! "keyword_difficulty"))) as Ha.
  { unfold extract, mbind, outcome_bind.
    rewrite (raise_for_status_pass _ Hstatus), Hjson. cbn [get].
    by rewrite Hmeta. }
  destruct (d !! "search_metadata") as [[| | | | | |m]|]; try done.
Qed.

Lemma other_status_is_success_witness :
  (get_seo_metrics
     (constant_endpoint 120 304 "Not Modified"
        (Ret (VDict {[ "keyword_difficulty" := VInt 40 ]})))
     "seo" "secret" (∅, World 0 [])).1
  = Ret (success_record "seo" (VStr "N/A") (VInt 40)).
Proof.
  etrans.
  - apply (other_status_is_success
             (constant_endpoint 120 304 "Not Modified"
                (Ret (VDict {[ "keyword_difficulty" := VInt 40 ]})))
             "seo" "secret" ∅ (World 0 [])
             (Response 304 "Not Modified" SERPAPI_URL
                (Ret (VDict {[ "keyword_difficulty" := VInt 40 ]})))
             {[ "keyword_difficulty" := VInt 40 ]} ∅).
    + intros e. rewrite lookup_empty. discriminate.
    + reflexivity.
    + simpl. lia.
    + reflexivity.
    + reflexivity.
  - reflexivity.
Defined.

(** * Further properties of the analysis loop *)

Section loop_more.
Variable net : endpoint.
Variables (api_key : string) (analysis_limit : Z).

(** One iteration in full. *)
Lemma loop_body_spec (i : Z) (keyword : string) (a : app_state) :
  0 ≤ i → i + 1 ≤ analysis_limit →
  ∃ r cache' w',
    get_seo_metrics net keyword api_key (backend a) = (Ret r, (cache', w'))
    ∧ loop_body net api_key analysis_limit i keyword a
      = (Ret (),
         AppState (results a ++ [r])
           (trace a ++ loop_events api_key analysis_limit i [keyword] [r])
           cache' (World (clock w' + 200) (sent w'))).
Proof.
  intros Hi Hk.
  destruct (get_seo_metrics_returns net keyword api_key
              (metrics_cache a) (outside a)) as (r & cache' & w' & Hr).
  exists r, cache', w'. split; [done|].
  unfold loop_body, pbind, status_text_text, emit, call_get_seo_metrics.
  cbn [results trace metrics_cache outside]. rewrite Hr.
  unfold results_append, progress_bar_progress.
  cbn [results trace metrics_cache outside].
  rewrite bool_decide_eq_false_2 by lia.
  rewrite bool_decide_eq_true_2 by lia.
  unfold emit, sleep_200ms, time_sleep.
  cbn [results trace metrics_cache outside Z.ltb Z.compare].
  rewrite <- !app_assoc. done.
Qed.

Lemma loop_events_cons (i : Z) (keyword : string) (l : list string)
    (r : gmap string val) (rs : list (gmap string val)) :
  loop_events api_key analysis_limit i (keyword :: l) (r :: rs)
  = loop_events api_key analysis_limit i [keyword] [r]
    ++ loop_events api_key analysis_limit (i + 1) l rs.
Proof. done. Qed.

Lemma run_app (h1 h2 : list action)
    (st : gmap (string * string) (entry (gmap string val)) * world) :
  run net (h1 ++ h2) st = run net h2 (run net h1 st).
Proof. unfold run. apply foldl_app. Qed.

(** The whole loop: its results, its trace, and what it does to the cache
    and the world. *)
Lemma for_enumerate_spec (l : list string) (i : Z) (a : app_state) :
  0 ≤ i → i + Z.of_nat (length l) ≤ analysis_limit →
  ∃ rs a',
    for_enumerate (loop_body net api_key analysis_limit) i l a = (Ret (), a')
    ∧ results a' = results a ++ rs
    ∧ length rs = length l
    ∧ trace a' = trace a ++ loop_events api_key analysis_limit i l rs
    ∧ backend a' = run net (loop_history l api_key) (backend a).
Proof.
  revert i a. induction l as [|keyword l IH]; intros i a Hi Hk.
  - exists [], a. cbn. by rewrite !app_nil_r.
  - cbn [length] in Hk.
    destruct (loop_body_spec i keyword a) as (r & cache' & w' & Hr & Hbody);
      [lia..|].
    destruct (IH (i + 1) (AppState (results a ++ [r])
                (trace a ++ loop_events api_key analysis_limit i [keyword] [r])
                cache' (World (clock w' + 200) (sent w'))))
      as (rs & a' & Hrest & Hres & Hlen & Htrace & Hback); [lia..|].
    exists (r :: rs), a'. cbn [for_enumerate]. unfold pbind at 1.
    rewrite Hbody, Hrest. split; [done|].
    cbn [results trace] in *.
    split; [by rewrite Hres, <- app_assoc|].
    split; [cbn; by rewrite Hlen|].
    split; [by rewrite Htrace, loop_events_cons, <- app_assoc|].
    rewrite Hback.
    change (loop_history (keyword :: l) api_key)
      with ([CallFetch keyword api_key; Wait 200] ++ loop_history l api_key).
    rewrite run_app. f_equal.
    unfold backend, run. cbn [foldl step metrics_cache outside].
    fold (backend a). rewrite Hr. done.
Qed.

Lemma progress_loop_events (i : Z) (l : list string)
    (rs : list (gmap string val)) :
  length rs = length l →
  progress_events (loop_events api_key analysis_limit i l rs)
  = (λ j : nat, (i + Z.of_nat j + 1, analysis_limit)) <$> seq 0 (length l).
Proof.
  revert i rs. induction l as [|keyword l IH]; intros i [|r rs] Hlen;
    try done.
  cbn [length] in *. rewrite loop_events_cons. unfold progress_events.
  rewrite omap_app. fold (progress_events (loop_events api_key analysis_limit (i + 1) l rs)).
  rewrite IH by lia. cbn [seq fmap list_fmap]. cbn.
  f_equal; [f_equal; lia|].
  rewrite <- fmap_S_seq, <- list_fmap_compose.
  apply list_fmap_ext. intros _ j _. cbn. f_equal. lia.
Qed.

Lemma sleep_loop_events (i : Z) (l : list string)
    (rs : list (gmap string val)) :
  length rs = length l →
  sleep_events (loop_events api_key analysis_limit i l rs)
  = replicate (length l) 200.
Proof.
  revert i rs. induction l as [|keyword l IH]; intros i [|r rs] Hlen;
    try done.
  cbn [length] in *. rewrite loop_events_cons. unfold sleep_events.
  rewrite omap_app. fold (sleep_events (loop_events api_key analysis_limit (i + 1) l rs)).
  rewrite IH by lia. done.
Qed.

Lemma run_loop_clock (l : list string)
    (st : gmap (string * string) (entry (gmap string val)) * world) :
  clock st.2 + 200 * Z.of_nat (length l)
  ≤ clock (run net (loop_history l api_key) st).2.
Proof.
  revert st. induction l as [|keyword l IH]; intros st; [cbn; lia|].
  change (loop_history (keyword :: l) api_key)
    with ([CallFetch keyword api_key; Wait 200] ++ loop_history l api_key).
  rewrite run_app.
  etrans; [|apply IH].
  unfold run. cbn [foldl step snd]. unfold time_sleep. cbn [Z.of_N Z.ltb Z.compare snd clock].
  pose proof (get_seo_metrics_clock net keyword api_key st).
  cbn [length]. lia.
Qed.

Lemma run_loop_sent (l : list string)
    (st : gmap (string * string) (entry (gmap string val)) * world) :
  ∃ l', l' `sublist_of` l
        ∧ sent (run net (loop_history l api_key) st).2
          = sent st.2 ++ ((λ keyword, metrics_request keyword api_key) <$> l').
Proof.
  revert st. induction l as [|keyword l IH]; intros st.
  - exists []. split; [done|]. cbn. by rewrite app_nil_r.
  - change (loop_history (keyword :: l) api_key)
      with ([CallFetch keyword api_key; Wait 200] ++ loop_history l api_key).
    rewrite run_app.
    destruct (IH (run net [CallFetch keyword api_key; Wait 200] st))
      as (l' & Hsub & Hsent).
    rewrite Hsent. unfold run at 1. cbn [foldl step snd].
    unfold time_sleep. cbn [Z.of_N Z.ltb Z.compare snd sent].
    destruct (get_seo_metrics_sent net keyword api_key st)
      as [[Hs _]|Hs]; rewrite Hs.
    + exists l'. split; [by apply sublist_cons|done].
    + exists (keyword :: l'). split; [by apply sublist_skip|].
      by rewrite <- app_assoc.
Qed.

End loop_more.

Lemma analysis_loop_spec (net : endpoint) (keywords : list string)
    (api_key : string) (analysis_limit : Z) (a : app_state) :
  0 ≤ analysis_limit →
  ∃ rs a',
    analysis_loop net keywords api_key analysis_limit a = (Ret (), a')
    ∧ results a' = rs
    ∧ length rs = Nat.min (length keywords) (Z.to_nat analysis_limit)
    ∧ trace a'
      = trace a ++ loop_events api_key analysis_limit 0
                     (take (Z.to_nat analysis_limit) keywords) rs
    ∧ backend a'
      = run net (loop_history (take (Z.to_nat analysis_limit) keywords) api_key)
          (backend a).
Proof.
  intros Hk. unfold analysis_loop, pbind at 1, slice_to.
  destruct (Z.ltb_spec analysis_limit 0) as [?|_]; [lia|].
  destruct (for_enumerate_spec net api_key analysis_limit
              (take (Z.to_nat analysis_limit) keywords) 0
              (AppState [] (trace a) (metrics_cache a) (outside a)))
    as (rs & a' & Hrun & Hres & Hlen & Htrace & Hback).
  { done. }
  { rewrite length_take. lia. }
  exists rs, a'. split; [done|]. split; [done|].
  rewrite length_take in Hlen. split; [lia|]. split; done.
Qed.

(** X8: the loop sets the progress bar to 1/k, 2/k, ..., m/k in turn,
    where k is [analysis_limit] and m the number of keywords analysed, the
    smaller of k and the number of keywords.  With fewer keywords than
    [analysis_limit] the bar therefore never reaches 100 percent. *)
Theorem progress_values (net : endpoint) (keywords : list string)
    (api_key : string) (analysis_limit : Z) (a : app_state) :
  0 ≤ analysis_limit →
  ∃ a',
    analysis_loop net keywords api_key analysis_limit a = (Ret (), a')
    ∧ progress_events (trace a')
      = progress_events (trace a)
        ++ ((λ j : nat, (Z.of_nat j + 1, analysis_limit))
              <$> seq 0 (Nat.min (length keywords) (Z.to_nat analysis_limit)))
    ∧ (Z.of_nat (length keywords) < analysis_limit →
       ∀ p, p ∈ progress_events (trace a') →
            p ∈ progress_events (trace a) ∨ 0 < p.1 < p.2).
Proof.
  intros Hk.
  destruct (analysis_loop_spec net keywords api_key analysis_limit a Hk)
    as (rs & a' & Hrun & _ & Hlen & Htrace & _).
  exists a'. split; [done|].
  assert (progress_events (trace a')
          = progress_events (trace a)
            ++ ((λ j : nat, (Z.of_nat j + 1, analysis_limit))
                  <$> seq 0 (Nat.min (length keywords) (Z.to_nat analysis_limit))))
    as Hp.
  { rewrite Htrace. unfold progress_events at 1. rewrite omap_app.
    f_equal. fold (progress_events
                     (loop_events api_key analysis_limit 0
                        (take (Z.to_nat analysis_limit) keywords) rs)).
    rewrite progress_loop_events by (rewrite length_take; lia).
    rewrite length_take.
    replace (Nat.min (Z.to_nat analysis_limit) (length keywords))
      with (Nat.min (length keywords) (Z.to_nat analysis_limit)) by lia.
    done. }
  split; [done|]. intros Hfew p. rewrite Hp, elem_of_app.
  intros [Hold|Hnew]; [by left|right].
  apply list_elem_of_fmap in Hnew as (j & -> & Hj).
  apply elem_of_seq in Hj. cbn [fst snd]. lia.
Qed.

Lemma progress_values_witness :
  ∃ a',
    analysis_loop (constant_endpoint 120 200 "OK" (Ret (VDict ∅)))
      ["k1"; "k2"; "k3"] "key" 5 (AppState [] [] ∅ (World 0 [])) = (Ret (), a')
    ∧ progress_events (trace a') = [(1, 5); (2, 5); (3, 5)].
Proof.
  destruct (progress_values (constant_endpoint 120 200 "OK" (Ret (VDict ∅)))
              ["k1"; "k2"; "k3"] "key" 5 (AppState [] [] ∅ (World 0 [])))
    as (a' & Hrun & Hp & _).
  - lia.
  - exists a'. split; [exact Hrun|exact Hp].
Defined.

(** X9: the loop sleeps 200 ms after every call of [get_seo_metrics], the
    calls answered from the cache and the last call included; the clock
    advances by at least 200 ms for each keyword analysed. *)
Theorem loop_sleeps (net : endpoint) (keywords : list string)
    (api_key : string) (analysis_limit : Z) (a : app_state) :
  0 ≤ analysis_limit →
  ∃ a',
    analysis_loop net keywords api_key analysis_limit a = (Ret (), a')
    ∧ sleep_events (trace a')
      = sleep_events (trace a)
        ++ replicate (Nat.min (length keywords) (Z.to_nat analysis_limit)) 200
    ∧ clock (outside a)
      + 200 * Z.of_nat (Nat.min (length keywords) (Z.to_nat analysis_limit))
      ≤ clock (outside a').
Proof.
  intros Hk.
  destruct (analysis_loop_spec net keywords api_key analysis_limit a Hk)
    as (rs & a' & Hrun & _ & Hlen & Htrace & Hback).
  exists a'. split; [done|]. split.
  - rewrite Htrace. unfold sleep_events at 1. rewrite omap_app. f_equal.
    fold (sleep_events
            (loop_events api_key analysis_limit 0
               (take (Z.to_nat analysis_limit) keywords) rs)).
    rewrite sleep_loop_events by (rewrite length_take; lia).
    rewrite length_take. f_equal. lia.
  - pose proof (run_loop_clock net api_key
                  (take (Z.to_nat analysis_limit) keywords) (backend a)) as Hc.
    rewrite <- Hback, length_take in Hc. cbn [backend snd] in Hc. lia.
Qed.

Lemma loop_sleeps_witness :
  ∃ a',
    analysis_loop (constant_endpoint 120 200 "OK" (Ret (VDict ∅)))
      ["k1"; "k1"; "k3"] "key" 2 (AppState [] [] ∅ (World 0 [])) = (Ret (), a')
    ∧ sleep_events (trace a') = [200; 200]
    ∧ 400 ≤ clock (outside a').
Proof.
  destruct (loop_sleeps (constant_endpoint 120 200 "OK" (Ret (VDict ∅)))
              ["k1"; "k1"; "k3"] "key" 2 (AppState [] [] ∅ (World 0 [])))
    as (a' & Hrun & Hs & Hc).
  - lia.
  - exists a'. split; [exact Hrun|]. split; [exact Hs|exact Hc].
Defined.

(** X10: the requests the loop sends are requests for keywords among the
    first [analysis_limit] ones, with the credential given, in the order
    of the keywords and at most one for each position; so the loop sends
    at most min(N, analysis_limit) requests. *)
Theorem loop_requests_bounded (net : endpoint) (keywords : list string)
    (api_key : string) (analysis_limit : Z) (a : app_state) :
  0 ≤ analysis_limit →
  ∃ a' l',
    analysis_loop net keywords api_key analysis_limit a = (Ret (), a')
    ∧ l' `sublist_of` take (Z.to_nat analysis_limit) keywords
    ∧ sent (outside a')
      = sent (outside a) ++ ((λ keyword, metrics_request keyword api_key) <$> l')
    ∧ (length (sent (outside a'))
       ≤ length (sent (outside a))
         + Nat.min (length keywords) (Z.to_nat analysis_limit))%nat.
Proof.
  intros Hk.
  destruct (analysis_loop_spec net keywords api_key analysis_limit a Hk)
    as (rs & a' & Hrun & _ & Hlen & Htrace & Hback).
  destruct (run_loop_sent net api_key
              (take (Z.to_nat analysis_limit) keywords) (backend a))
    as (l' & Hsub & Hsent).
  rewrite <- Hback in Hsent. cbn [backend snd] in Hsent.
  exists a', l'. split; [done|]. split; [done|]. split; [done|].
  rewrite Hsent, length_app, length_fmap.
  apply sublist_length in Hsub. rewrite length_take in Hsub. lia.
Qed.

Lemma loop_requests_bounded_witness :
  ∃ a' l',
    analysis_loop (constant_endpoint 120 200 "OK" (Ret (VDict ∅)))
      ["k1"; "k1"; "k3"] "key" 2 (AppState [] [] ∅ (World 0 [])) = (Ret (), a')
    ∧ l' `sublist_of` ["k1"; "k1"]
    ∧ sent (outside a') = (λ keyword, metrics_request keyword "key") <$> l'
    ∧ (length (sent (outside a')) ≤ 2)%nat.
Proof.
  destruct (loop_requests_bounded
              (constant_endpoint 120 200 "OK" (Ret (VDict ∅)))
              ["k1"; "k1"; "k3"] "key" 2 (AppState [] [] ∅ (World 0 [])))
    as (a' & l' & Hrun & Hsub & Hsent & Hlen).
  - lia.
  - exists a', l'. split; [exact Hrun|]. split; [exact Hsub|].
    split; [exact Hsent|exact Hlen].
Defined.

(** ** Running the loop again *)

Section rerun.
Variable net : endpoint.
Variables (api_key : string) (analysis_limit : Z).

Lemma get_seo_metrics_inserted_since (t0 : Z) (keyword : string)
    (st : gmap (string * string) (entry (gmap string val)) * world) :
  inserted_since t0 st.1 → t0 ≤ clock st.2 →
  inserted_since t0 (get_seo_metrics net keyword api_key st).2.1.
Proof.
  destruct st as [cache w]. cbn [fst snd]. intros Hsince Ht.
  destruct (get_seo_metrics_cases keyword api_key cache w) as [(e & Hk & Hl)|Hk].
  - by rewrite (get_seo_metrics_hit _ _ _ _ _ e).
  - rewrite get_seo_metrics_miss, get_seo_metrics_body_eq by done.
    cbn zeta. cbn [fst snd]. intros k e.
    destruct (decide ((keyword, api_key) = k)) as [<-|Hne].
    + rewrite lookup_insert_eq. intros [= <-]. cbn [inserted clock]. lia.
    + rewrite lookup_insert_ne by done. apply Hsince.
Qed.

(** A loop over keywords whose entries are all live until [T] only reads
    the cache. *)
Lemma for_enumerate_all_hits (l : list string) (rs : list (gmap string val))
    (i : Z) (a : app_state) (T : Z) :
  0 ≤ i → i + Z.of_nat (length l) ≤ analysis_limit →
  Forall2 (λ keyword r,
             ∃ e, metrics_cache a !! (keyword, api_key) = Some e
                  ∧ stored e = r ∧ T ≤ inserted e + metrics_ttl_ms) l rs →
  clock (outside a) + 200 * Z.of_nat (length l) ≤ T →
  ∃ a',
    for_enumerate (loop_body net api_key analysis_limit) i l a = (Ret (), a')
    ∧ results a' = results a ++ rs
    ∧ metrics_cache a' = metrics_cache a
    ∧ sent (outside a') = sent (outside a).
Proof.
  intros Hi Hk Hall.
  remember (metrics_cache a) as cache eqn:Hc. revert i a Hc Hi Hk.
  induction Hall as [|keyword r l rs (e & He & Hst & HT) Hall IH];
    intros i a -> Hi Hk Hclock.
  - exists a. cbn. by rewrite app_nil_r.
  - cbn [length] in *.
    destruct (loop_body_spec net api_key analysis_limit i keyword a)
      as (r' & cache' & w' & Hr & Hbody); [lia..|].
    unfold backend in Hr.
    rewrite (get_seo_metrics_hit _ _ _ _ _ e) in Hr by (done || lia).
    injection Hr as <- <- <-.
    destruct (IH (i + 1)
                (AppState (results a ++ [stored e])
                   (trace a ++ loop_events api_key analysis_limit i
                                 [keyword] [stored e])
                   (metrics_cache a)
                   (World (clock (outside a) + 200) (sent (outside a)))))
      as (a' & Hrest & Hres & Hcache & Hsent).
    { done. }
    { lia. }
    { lia. }
    { cbn [outside clock]. lia. }
    exists a'. cbn [for_enumerate]. unfold pbind at 1.
    rewrite Hbody, Hrest. split; [done|].
    cbn [results metrics_cache outside sent] in *.
    split; [by rewrite Hres, <- app_assoc, Hst|]. done.
Qed.

(** A loop that ends within the expiry of every entry leaves in the cache
    the records it has collected. *)
Lemma for_enumerate_stores (l : list string) (i : Z) (a : app_state) (t0 : Z) :
  0 ≤ i → i + Z.of_nat (length l) ≤ analysis_limit →
  inserted_since t0 (metrics_cache a) → t0 ≤ clock (outside a) →
  ∃ rs a',
    for_enumerate (loop_body net api_key analysis_limit) i l a = (Ret (), a')
    ∧ results a' = results a ++ rs
    ∧ inserted_since t0 (metrics_cache a')
    ∧ clock (outside a) ≤ clock (outside a')
    ∧ (clock (outside a') < t0 + metrics_ttl_ms →
       (∀ k e, metrics_cache a !! k = Some e → metrics_cache a' !! k = Some e)
       ∧ Forall2 (λ keyword r,
                    ∃ e, metrics_cache a' !! (keyword, api_key) = Some e
                         ∧ stored e = r) l rs).
Proof.
  revert i a. induction l as [|keyword l IH]; intros i a Hi Hk Hsince Ht.
  - exists [], a. cbn. rewrite app_nil_r. repeat split; try done.
  - cbn [length] in Hk.
    destruct (loop_body_spec net api_key analysis_limit i keyword a)
      as (r & cache' & w' & Hr & Hbody); [lia..|].
    pose proof (get_seo_metrics_inserted_since t0 keyword (backend a) Hsince Ht)
      as Hsince'.
    pose proof (get_seo_metrics_clock net keyword api_key (backend a)) as Hclock.
    pose proof (get_seo_metrics_stores net keyword api_key (backend a))
      as (r0 & e0 & Hr0 & He0 & Hst0 & _).
    pose proof (get_seo_metrics_keeps net keyword api_key (backend a)) as Hkeeps.
    rewrite Hr in Hsince', Hclock, Hr0, He0, Hkeeps.
    cbn [fst snd backend] in Hsince', Hclock, Hr0, He0, Hkeeps.
    injection Hr0 as <-.
    destruct (IH (i + 1)
                (AppState (results a ++ [r])
                   (trace a ++ loop_events api_key analysis_limit i [keyword] [r])
                   cache' (World (clock w' + 200) (sent w'))))
      as (rs & a' & Hrest & Hres & Hsince'' & Hmono & Hfinal).
    { lia. }
    { lia. }
    { done. }
    { cbn [outside clock]. lia. }
    cbn [results metrics_cache outside clock] in *.
    exists (r :: rs), a'. cbn [for_enumerate]. unfold pbind at 1.
    rewrite Hbody, Hrest. split; [done|].
    split; [by rewrite Hres, <- app_assoc|].
    split; [done|]. split; [lia|].
    intros Hend. destruct (Hfinal Hend) as [Hkept Hall]. split.
    + intros k e He. apply Hkept, Hkeeps; [done|].
      specialize (Hsince k e He). lia.
    + constructor; [|done]. exists e0. split; [|done]. by apply Hkept.
Qed.

End rerun.

Lemma analysis_loop_unfold (net : endpoint) (keywords : list string)
    (api_key : string) (analysis_limit : Z) (a : app_state) :
  0 ≤ analysis_limit →
  analysis_loop net keywords api_key analysis_limit a
  = for_enumerate (loop_body net api_key analysis_limit) 0
      (take (Z.to_nat analysis_limit) keywords)
      (AppState [] (trace a) (metrics_cache a) (outside a)).
Proof.
  intros Hk. unfold analysis_loop, pbind, slice_to.
  by destruct (Z.ltb_spec analysis_limit 0) as [?|_]; [lia|].
Qed.



(** ** The records the loop collects *)

Lemma for_enumerate_built (net : endpoint) (api_key : string)
    (analysis_limit : Z) (l : list string) (i : Z) (a : app_state) :
  0 ≤ i → i + Z.of_nat (length l) ≤ analysis_limit →
  cache_ok (metrics_cache a) →
  ∃ rs a',
    for_enumerate (loop_body net api_key analysis_limit) i l a = (Ret (), a')
    ∧ results a' = results a ++ rs
    ∧ cache_ok (metrics_cache a')
    ∧ Forall2 built_for l rs.
Proof.
  revert i a. induction l as [|keyword l IH]; intros i a Hi Hk Hok.
  - exists [], a. cbn. rewrite app_nil_r. repeat split; try done.
  - cbn [length] in Hk.
    destruct (loop_body_spec net api_key analysis_limit i keyword a)
      as (r & cache' & w' & Hr & Hbody); [lia..|].
    destruct (get_seo_metrics_cache_ok net keyword api_key (backend a) Hok)
      as [Hok' (r0 & Hr0 & Hb)].
    rewrite Hr in Hok', Hr0. cbn [fst snd] in Hok', Hr0. injection Hr0 as <-.
    destruct (IH (i + 1)
                (AppState (results a ++ [r])
                   (trace a ++ loop_events api_key analysis_limit i [keyword] [r])
                   cache' (World (clock w' + 200) (sent w'))))
      as (rs & a' & Hrest & Hres & Hok'' & Hall); [lia..|done|].
    exists (r :: rs), a'. cbn [for_enumerate]. unfold pbind at 1.
    rewrite Hbody, Hrest. cbn [results] in Hres. split; [done|].
    split; [by rewrite Hres, <- app_assoc|]. split; [done|].
    by constructor.
Qed.

(** X12: when every record in the cache was built for the keyword of its
    key, as in a process that started with an empty cache, the records the
    loop collects line up with the keywords analysed: the record at each
    position carries the keyword at that position and has one of the two
    shapes, success with both metrics or failure with an error; and the
    cache is left in the same condition. *)
Theorem loop_results_match (net : endpoint) (keywords : list string)
    (api_key : string) (analysis_limit : Z) (a : app_state) :
  0 ≤ analysis_limit →
  cache_ok (metrics_cache a) →
  ∃ a',
    analysis_loop net keywords api_key analysis_limit a = (Ret (), a')
    ∧ Forall2 (λ keyword r,
                 r !! "keyword" = Some (VStr keyword) ∧ well_formed r)
        (take (Z.to_nat analysis_limit) keywords) (results a')
    ∧ cache_ok (metrics_cache a').
Proof.
  intros Hk Hok. rewrite analysis_loop_unfold by done.
  destruct (for_enumerate_built net api_key analysis_limit
              (take (Z.to_nat analysis_limit) keywords) 0
              (AppState [] (trace a) (metrics_cache a) (outside a)))
    as (rs & a' & Hrun & Hres & Hok' & Hall).
  { done. }
  { rewrite length_take. lia. }
  { done. }
  cbn [results app] in Hres. subst rs.
  exists a'. split; [done|]. split; [|done].
  eapply Forall2_impl; [exact Hall|].
  intros keyword r Hb. by destruct (built_for_well_formed _ _ Hb).
Qed.

Lemma loop_results_match_witness :
  ∃ a',
    analysis_loop (constant_endpoint 120 401 "Unauthorized" (Ret VNone))
      ["k1"; "k2"; "k3"] "badkey" 2 (AppState [] [] ∅ (World 0 [])) = (Ret (), a')
    ∧ Forall2 (λ keyword r,
                 r !! "keyword" = Some (VStr keyword) ∧ well_formed r)
        ["k1"; "k2"] (results a').
Proof.
  destruct (loop_results_match
              (constant_endpoint 120 401 "Unauthorized" (Ret VNone))
              ["k1"; "k2"; "k3"] "badkey" 2 (AppState [] [] ∅ (World 0 [])))
    as (a' & Hrun & Hall & _).
  - lia.
  - intros keyword api_key e. cbn [metrics_cache]. rewrite lookup_empty.
    discriminate.
  - exists a'. split; [exact Hrun|exact Hall].
Defined.

(** * The calls the loop makes *)

Section loop_calls.
Variable net : endpoint.
Variables (api_key : string) (analysis_limit : Z).

(** Each record the loop collects is what [get_seo_metrics] returns for
    the keyword of that position, on the cache and the world as the calls
    and sleeps before it have left them. *)
Lemma for_enumerate_returns (l : list string) (i : Z) (a : app_state) :
  0 ≤ i → i + Z.of_nat (length l) ≤ analysis_limit →
  ∃ rs a',
    for_enumerate (loop_body net api_key analysis_limit) i l a = (Ret (), a')
    ∧ results a' = results a ++ rs
    ∧ ∀ (j : nat) (keyword : string),
        l !! j = Some keyword →
        ∃ r, rs !! j = Some r
             ∧ (get_seo_metrics net keyword api_key
                  (before_call net l api_key j (backend a))).1 = Ret r.
Proof.
  revert i a. induction l as [|keyword0 l IH]; intros i a Hi Hk.
  - exists [], a. cbn. rewrite app_nil_r. repeat split; try done.
  - cbn [length] in Hk.
    destruct (loop_body_spec net api_key analysis_limit i keyword0 a)
      as (r & cache' & w' & Hr & Hbody); [lia..|].
    destruct (IH (i + 1)
                (AppState (results a ++ [r])
                   (trace a ++ loop_events api_key analysis_limit i [keyword0] [r])
                   cache' (World (clock w' + 200) (sent w'))))
      as (rs & a' & Hrest & Hres & Hret); [lia..|].
    exists (r :: rs), a'. cbn [for_enumerate]. unfold pbind at 1.
    rewrite Hbody, Hrest. split; [done|].
    cbn [results] in Hres. split; [by rewrite Hres, <- app_assoc|].
    intros [|j] keyword Hj.
    + cbn in Hj. injection Hj as <-. exists r. split; [done|].
      change (before_call net (keyword0 :: l) api_key 0 (backend a))
        with (backend a).
      by rewrite Hr.
    + cbn in Hj. destruct (Hret j keyword Hj) as (r' & Hrs & Hget).
      exists r'. split; [done|].
      unfold before_call in *. cbn [take].
      change (loop_history (keyword0 :: take j l) api_key)
        with ([CallFetch keyword0 api_key; Wait 200]
                ++ loop_history (take j l) api_key).
      rewrite run_app.
      replace (run net [CallFetch keyword0 api_key; Wait 200] (backend a))
        with (backend (AppState (results a ++ [r])
                (trace a ++ loop_events api_key analysis_limit i [keyword0] [r])
                cache' (World (clock w' + 200) (sent w')))); [done|].
      unfold backend, run. cbn [foldl step metrics_cache outside].
      fold (backend a). by rewrite Hr.
Qed.

End loop_calls.

(** C8: with a non-negative [analysis_limit], as the slider gives it, the
    loop over [keywords[:analysis_limit]] ends without raising, having
    called [get_seo_metrics] once for each of the first
    [min (len keywords) analysis_limit] keywords, in their order.  The
    record collected at each position is the one [get_seo_metrics] returns
    for the keyword of that position, called on the cache and the world
    as the earlier calls and sleeps have left them, and the cache and the
    world after the loop are those after these calls, each followed by its
    sleep. *)
Theorem analysis_loop_calls (net : endpoint) (keywords : list string)
    (api_key : string) (analysis_limit : Z) (a : app_state) :
  0 ≤ analysis_limit →
  ∃ a',
    analysis_loop net keywords api_key analysis_limit a = (Ret (), a')
    ∧ length (results a') = Nat.min (length keywords) (Z.to_nat analysis_limit)
    ∧ fetch_calls (trace a')
      = fetch_calls (trace a)
        ++ zip_with (λ kw r, (kw, api_key, r))
             (take (Z.to_nat analysis_limit) keywords) (results a')
    ∧ length (fetch_calls (trace a'))
      = (length (fetch_calls (trace a))
         + Nat.min (length keywords) (Z.to_nat analysis_limit))%nat
    ∧ (∀ (j : nat) (keyword : string),
         take (Z.to_nat analysis_limit) keywords !! j = Some keyword →
         ∃ r, results a' !! j = Some r
              ∧ (get_seo_metrics net keyword api_key
                   (before_call net (take (Z.to_nat analysis_limit) keywords)
                      api_key j (backend a))).1 = Ret r)
    ∧ backend a'
      = run net (loop_history (take (Z.to_nat analysis_limit) keywords) api_key)
          (backend a).
Proof.
  intros Hk. rewrite analysis_loop_unfold by done.
  destruct (for_enumerate_run net api_key analysis_limit
              (take (Z.to_nat analysis_limit) keywords) 0
              (AppState [] (trace a) (metrics_cache a) (outside a)))
    as (rs & a' & Hrun & Hres & Hlen & Hcalls).
  { done. }
  { rewrite length_take. lia. }
  destruct (for_enumerate_spec net api_key analysis_limit
              (take (Z.to_nat analysis_limit) keywords) 0
              (AppState [] (trace a) (metrics_cache a) (outside a)))
    as (rs2 & a2 & Hrun2 & _ & _ & _ & Hback).
  { done. }
  { rewrite length_take. lia. }
  destruct (for_enumerate_returns net api_key analysis_limit
              (take (Z.to_nat analysis_limit) keywords) 0
              (AppState [] (trace a) (metrics_cache a) (outside a)))
    as (rs3 & a3 & Hrun3 & Hres3 & Hret).
  { done. }
  { rewrite length_take. lia. }
  rewrite Hrun in Hrun2, Hrun3. injection Hrun2 as <-. injection Hrun3 as <-.
  cbn [results trace app] in *. subst rs rs3.
  exists a'. split; [done|].
  rewrite length_take in Hlen. split; [lia|]. split; [done|].
  split; [rewrite Hcalls, length_app, length_zip_with, length_take; lia|].
  split; [exact Hret|exact Hback].
Qed.

Lemma analysis_loop_calls_witness :
  ∃ a',
    analysis_loop (constant_endpoint 120 401 "Unauthorized" (Ret VNone))
      ["k1"; "k2"; "k3"; "k4"; "k5"; "k6"; "k7"; "k8"; "k9"; "k10"; "k11"; "k12"]
      "badkey" 5 (AppState [] [] ∅ (World 0 [])) = (Ret (), a')
    ∧ length (results a') = 5%nat
    ∧ fetch_calls (trace a')
      = zip_with (λ kw r, (kw, "badkey", r))
          ["k1"; "k2"; "k3"; "k4"; "k5"] (results a')
    ∧ length (fetch_calls (trace a')) = 5%nat
    ∧ (∃ r, results a' !! 0%nat = Some r
            ∧ (get_seo_metrics (constant_endpoint 120 401 "Unauthorized" (Ret VNone))
                 "k1" "badkey" (∅, World 0 [])).1 = Ret r)
    ∧ sent (outside a')
      = (λ keyword, metrics_request keyword "badkey")
          <$> ["k1"; "k2"; "k3"; "k4"; "k5"].
Proof.
  destruct (analysis_loop_calls
              (constant_endpoint 120 401 "Unauthorized" (Ret VNone))
              ["k1"; "k2"; "k3"; "k4"; "k5"; "k6"; "k7"; "k8"; "k9"; "k10"; "k11"; "k12"]
              "badkey" 5 (AppState [] [] ∅ (World 0 [])))
    as (a' & Hrun & Hlen & Hcalls & Hcount & Hret & Hback).
  - lia.
  - exists a'. split; [exact Hrun|]. split; [exact Hlen|].
    split; [exact Hcalls|]. split; [exact Hcount|]. split.
    + apply (Hret 0%nat "k1"). reflexivity.
    + change (outside a') with (backend a').2. rewrite Hback. reflexivity.
Defined.
